(* ===== verification/_CoqProject ===== *)
-Q . S2P
Prelude.v
Css.v
Canvas.v
Layer.v
Loop.v
Geometry.v
Gradient.v
Monotone.v
Compositor.v
Pixels.v
Frame.v
Refinement.v
