(* ===== verification/Prelude.v ===== *)
(** * Dopelam: a verification development of [src/script.js]

    The script draws glowing animated curves.  [getGradientData] (lines
    9-50) samples two 25-pixel tables from a radial gradient (colours;
    opacities as grays).  [drawOnCtx] (122-162) clears a 2D canvas, builds a
    five-segment Bezier path and strokes it 25 times, width [2 l] coloured
    by table pixel [l].  [drawLine] (52-109) draws a full-screen quad, RGB
    from one texture, alpha from the other, blended into a WebGL buffer of
    the viewport times [min(2, devicePixelRatio)] (1-4).  Start-up (111-120,
    164-172) makes two canvases and three texture pairs; each [regl.frame]
    (174-201) clears to black, then per strand [i] redraws both canvases at
    phase [now/1000 + i], uploads them, draws the quad, clears depth.

    Files: [Prelude] (error monad [x <- m ;; k], bytes, pixels, rounding,
    hints, tactics); [Css] ([Quantizer] class for the browser's rounding,
    the stroke-style template, the colour parser); [Canvas] (the context
    record, one definition per method, the raster); [Layer] ([drawOnCtx]);
    [Loop] (the stroke loop with its numeric counter, [step] and fuel);
    [Geometry] (control points, growth of the curve); [Gradient] (the
    tables); [Monotone] (the tables grow along their rows); [Compositor]
    (surface, textures, shaders,
    depth, blend); [Pixels] (a layer's pixels and fragments); [Frame]
    (start-up, strands, frames, [reachable] states, the loop [run_frames]);
    [Refinement] (a frame from the inputs alone).

    Modelling: throws are [E + A]; JS [undefined] is [None] of a lookup;
    bytes are [Z]; gradient and GPU arithmetic is exact over [Q], curve
    coordinates over [R].  Browser and GPU calls follow the HTML canvas,
    WebGL and regl rules; stroke coverage ([coverage]) and colour rounding
    ([Quantizer]) are parameters.  The clock maps a read index to
    milliseconds.  Loops have constant bounds (5, 25, 3) and are structural
    recursion; the frame loop is a list of inputs.  Fuel appears once, in
    [Loop.js_for_down], where the decreasing counter is itself a claim:
    [l + 1] units suffice for a positive step.

    Theorems (see the manifest): the widest pass reads past the table and
    keeps a stale style; a call's display list, pixels and fragments; the
    termination of the stroke loop as JavaScript runs it; one frame's
    composite; the curve centred on the current window, not on its canvas,
    after a resize; reachable states never throw;
    every frame refines the input-only
    [frame_pixel]; the mirror, the blend and its bounds, the depth clear,
    the buffer size; the tables' shape, gray mask, monotony, sample range
    and errors (bad stops, height 0 or less); the template round trip; the curve's radii and its leaving the canvas.

    Not modelled: the stroke rasterizer (a parameter); page compositing of
    the WebGL canvas; DOM lookups and the unused [glMatrix] (lines 2, 5,
    7); non-linear radial gradients (the script's is linear); the unused
    textures of lines 113-114; [mediump] float rounding in the shaders
    (GPU arithmetic is exact). *)

From stdpp Require Import base list.
From Stdlib Require Import ZArith QArith Qround Lia Psatz.

Declare Scope dope_scope.
Delimit Scope dope_scope with dope.

Create HintDb dope.
Create Rewrite HintDb dope_rw.

#[local] Open Scope nat_scope.

(** A call that may throw: [inl] propagates like an uncaught exception. *)
Notation "x <- m ;; k" := (match m with inl e => inl e | inr x => k end)
  (at level 60, m at next level, right associativity) : dope_scope.

(** ** Bytes and RGBA pixels *)

(** A pixel: ImageData entry, texel or CSS colour. *)
Record rgba8 := RGBA8 { r8 : Z; g8 : Z; b8 : Z; a8 : Z }.

#[export] Instance rgba8_eq_dec : EqDecision rgba8.
Proof. solve_decision. Defined.

(** Transparent black: a pixel nothing has been drawn on. *)
Definition transparent8 : rgba8 := RGBA8 0 0 0 0.

Definition is_byte (z : Z) : bool := (0 <=? z)%Z && (z <=? 255)%Z.

Definition rgba8_ok (c : rgba8) : bool :=
  is_byte (r8 c) && is_byte (g8 c) && is_byte (b8 c) && is_byte (a8 c).

(** Uint8ClampedArray stores clamp their value into [0, 255]. *)
Definition clamp_byte (z : Z) : Z := Z.max 0 (Z.min 255 z).

Notation "⟦ r , g , b , a ⟧" := (RGBA8 r g b a) (format "⟦ r ,  g ,  b ,  a ⟧") : dope_scope.

(** The byte layout of ImageData.data: four bytes per pixel, row-major. *)
Fixpoint flatten_rgba (px : list rgba8) : list Z :=
  match px with
  | [] => []
  | c :: l => r8 c :: g8 c :: b8 c :: a8 c :: flatten_rgba l
  end.

(** Channel [k] (0 = red, ..., 3 = alpha) of a pixel. *)
Definition channel (k : nat) (c : rgba8) : Z :=
  match k with O => r8 c | 1%nat => g8 c | 2%nat => b8 c | _ => a8 c end.

Lemma is_byte_spec z : is_byte z = true <-> (0 <= z <= 255)%Z.
Proof. unfold is_byte. rewrite andb_true_iff, !Z.leb_le. tauto. Qed.

Lemma clamp_byte_is_byte z : is_byte (clamp_byte z) = true.
Proof. apply is_byte_spec. unfold clamp_byte. lia. Qed.

Lemma clamp_byte_id z : (0 <= z <= 255)%Z -> clamp_byte z = z.
Proof. unfold clamp_byte. lia. Qed.

Lemma length_flatten_rgba l : length (flatten_rgba l) = 4 * length l.
Proof. induction l; simpl; lia. Qed.

Lemma lookup_flatten_rgba l i k :
  k < 4 -> flatten_rgba l !! (4 * i + k) = channel k <$> l !! i.
Proof.
  intros Hk. revert i. induction l as [|c l IH]; intros i; [done |].
  destruct i as [|i].
  - destruct k as [|[|[|[|k]]]]; simpl; done || lia.
  - replace (4 * S i + k) with (S (S (S (S (4 * i + k))))) by lia. apply IH.
Qed.

(** A fold step as a rewrite (conversion makes the kernel compare folds). *)
Lemma fold_left_cons {A B} (f : A -> B -> A) (x : B) (l : list B) (a : A) :
  fold_left f (x :: l) a = fold_left f l (f a x).
Proof. reflexivity. Qed.

Lemma lookup_map {A B} (f : A -> B) (l : list A) i : map f l !! i = f <$> l !! i.
Proof. revert i. induction l as [|x l IH]; intros [|i]; simpl; auto. Qed.

Lemma Forall_flatten_rgba (P : Z -> Prop) l :
  Forall (fun c => P (r8 c) /\ P (g8 c) /\ P (b8 c) /\ P (a8 c)) l ->
  Forall P (flatten_rgba l).
Proof. induction 1 as [|c l [? [? [? ?]]] _ IH]; simpl; repeat constructor; auto. Qed.

(** Round to nearest, halves up. *)
Definition round_nearest (q : Q) : Z := Qfloor (q + (1 # 2)).

Lemma round_nearest_Z (z : Z) : round_nearest (inject_Z z) = z.
Proof.
  unfold round_nearest, Qfloor, Qplus, inject_Z; simpl.
  symmetry. apply Z.div_unique with 1%Z; lia.
Qed.

Lemma round_nearest_mono q q' : (q <= q')%Q -> (round_nearest q <= round_nearest q')%Z.
Proof. intros H. apply Qfloor_resp_le. lra. Qed.

Lemma round_nearest_compat q q' : (q == q')%Q -> round_nearest q = round_nearest q'.
Proof. intros H. apply Z.le_antisymm; apply round_nearest_mono; rewrite H; lra. Qed.

Lemma round_nearest_bounds (lo hi : Z) q :
  (inject_Z lo <= q <= inject_Z hi)%Q -> (lo <= round_nearest q <= hi)%Z.
Proof.
  intros [H1 H2]. rewrite <- (round_nearest_Z lo), <- (round_nearest_Z hi).
  split; by apply round_nearest_mono.
Qed.

#[export] Instance round_nearest_proper : Proper (Qeq ==> eq) round_nearest.
Proof. intros q q' H. by apply round_nearest_compat. Qed.

#[export] Hint Resolve clamp_byte_is_byte round_nearest_Z : dope.
#[export] Hint Rewrite length_flatten_rgba round_nearest_Z : dope_rw.

(** Order facts between integers seen as rationals. *)
Ltac qz := unfold Qle, Qlt; cbn [Qnum Qden inject_Z]; lia.

(** Turn byte-bound booleans into arithmetic and close with [lia]. *)
Ltac byte_lia :=
  repeat match goal with
  | H : is_byte _ = true |- _ => apply is_byte_spec in H
  | |- is_byte _ = true => apply is_byte_spec
  | H : _ && _ = true |- _ => apply andb_true_iff in H as [? ?]
  | H : _ /\ _ |- _ => destruct H
  | |- _ /\ _ => split
  | |- _ && _ = true => apply andb_true_iff; split
  end; lia.
