(* ===== verification/Css.v ===== *)
(** * CSS colours: the stroke-style template (src/script.js:156-158), the
    stop colours (lines 45, 49), the browser's parser for that syntax
    ([None] = invalid, ignored by the canvas), and the [Quantizer] class. *)

From S2P Require Import Prelude.
From stdpp Require Import base list.
From Stdlib Require Import ZArith QArith Qround Qminmax Lia Psatz String Ascii.
From Stdlib Require Import DecimalString DecimalN.

(** How the browser rounds an exact channel to a byte: monotone, fixing
    the integers. *)
Class Quantizer := {
  quantize : Q -> Z;
  quantize_mono : forall q q', (q <= q')%Q -> (quantize q <= quantize q')%Z;
  quantize_Z : forall z : Z, quantize (inject_Z z) = z
}.

#[export] Instance nearest_quantizer : Quantizer :=
  {| quantize := round_nearest;
     quantize_mono := round_nearest_mono;
     quantize_Z := round_nearest_Z |}.

Section QuantizerFacts.
Context `{Quantizer}.

Lemma quantize_bounds (lo hi : Z) q :
  (inject_Z lo <= q <= inject_Z hi)%Q -> (lo <= quantize q <= hi)%Z.
Proof.
  intros [H1 H2]. rewrite <- (quantize_Z lo), <- (quantize_Z hi).
  split; by apply quantize_mono.
Qed.

#[export] Instance quantize_proper : Proper (Qeq ==> eq) quantize.
Proof.
  intros q q' E. apply Z.le_antisymm; apply quantize_mono; rewrite E; lra.
Qed.

Lemma quantize_byte q : (0 <= q <= 255)%Q -> is_byte (quantize q) = true.
Proof.
  intros Hq. apply is_byte_spec. apply quantize_bounds.
  change (inject_Z 0) with 0%Q. change (inject_Z 255) with 255%Q. exact Hq.
Qed.
End QuantizerFacts.

#[export] Hint Resolve quantize_byte : dope.

(** HSL (CSS Color 4, 7.1); [h mod 360]. *)
Definition normalize_hue (h : Q) : Q := h - 360 * inject_Z (Qfloor (h / 360)).

Definition hue_to_rgb (t1 t2 h : Q) : Q :=
  let h := normalize_hue h in
  if Qlt_le_dec h 60 then t1 + (t2 - t1) * h / 60
  else if Qlt_le_dec h 180 then t2
  else if Qlt_le_dec h 240 then t1 + (t2 - t1) * (240 - h) / 60
  else t1.

Definition clamp01 (q : Q) : Q := Qmax 0 (Qmin 1 q).

Definition hsl_to_rgb (h s_pct l_pct : Q) : Q * Q * Q :=
  let s := clamp01 (s_pct / 100) in
  let l := clamp01 (l_pct / 100) in
  let t2 := if Qle_bool l (1 # 2) then l * (s + 1) else l + s - l * s in
  let t1 := l * 2 - t2 in
  (hue_to_rgb t1 t2 (h + 120), hue_to_rgb t1 t2 h, hue_to_rgb t1 t2 (h - 120)).

Inductive css_color :=
| CssNamed (name : string)
| CssHsl (hue sat light : Q).

(** The named colours used, and [black], the default style. *)
Definition named_color (name : string) : option rgba8 :=
  if String.eqb name "red" then Some (RGBA8 255 0 0 255)
  else if String.eqb name "orange" then Some (RGBA8 255 165 0 255)
  else if String.eqb name "white" then Some (RGBA8 255 255 255 255)
  else if String.eqb name "black" then Some (RGBA8 0 0 0 255)
  else None.

Definition resolve_color `{Quantizer} (c : css_color) : option rgba8 :=
  match c with
  | CssNamed n => named_color n
  | CssHsl h s l =>
      let '(r, g, b) := hsl_to_rgb h s l in
      Some (RGBA8 (quantize (255 * r)) (quantize (255 * g)) (quantize (255 * b)) 255)
  end.

#[local] Open Scope string_scope.

(** JS [String(v)] of an ImageData read: decimal, or ["undefined"]. *)
Definition js_to_string (v : option Z) : string :=
  match v with
  | Some z =>
      let digits := NilZero.string_of_uint (N.to_uint (Z.to_N (Z.abs z))) in
      if (z <? 0)%Z then "-" ++ digits else digits
  | None => "undefined"
  end.

Definition newline : string := String (ascii_of_nat 10) EmptyString.

(** The template literal [`\n      rgba(${r},${g},${b},${1})\n    `]. *)
Definition strokeStyle_template (r g b a : option Z) : string :=
  newline ++ "      rgba(" ++ js_to_string r ++ "," ++ js_to_string g ++ ","
    ++ js_to_string b ++ "," ++ js_to_string a ++ ")" ++ newline ++ "    ".

(** The parser.  CSS whitespace: 32, 9, 10, 12, 13. *)
Definition is_css_ws (c : ascii) : bool :=
  let n := nat_of_ascii c in
  ((n =? 32) || (n =? 9) || (n =? 10) || (n =? 12) || (n =? 13))%nat.

Fixpoint drop_ws (l : list ascii) : list ascii :=
  match l with
  | c :: l' => if is_css_ws c then drop_ws l' else l
  | [] => []
  end.

Definition trim_ws (l : list ascii) : list ascii := rev (drop_ws (rev (drop_ws l))).

Fixpoint split_on (sep : ascii) (l : list ascii) : list (list ascii) :=
  match l with
  | [] => [[]]
  | c :: l' =>
      if ascii_dec c sep then [] :: split_on sep l'
      else match split_on sep l' with
           | [] => [[c]]
           | w :: ws => (c :: w) :: ws
           end
  end.

Fixpoint strip_prefix (p l : list ascii) : option (list ascii) :=
  match p, l with
  | [], _ => Some l
  | c :: p', d :: l' => if ascii_dec c d then strip_prefix p' l' else None
  | _ :: _, [] => None
  end.

Definition parse_uint (tok : list ascii) : option Z :=
  (fun d => Z.of_N (N.of_uint d)) <$> NilZero.uint_of_string (string_of_list_ascii tok).

(** [rgba(r,g,b,a)], integer arguments, clamped. *)
Definition parse_rgba_args (inner : list ascii) : option rgba8 :=
  match (fun t => parse_uint (trim_ws t)) <$> split_on "," inner with
  | [Some r; Some g; Some b; Some a] =>
      Some (RGBA8 (clamp_byte r) (clamp_byte g) (clamp_byte b) (if (a =? 0)%Z then 0 else 255))
  | _ => None
  end.

Definition parse_css_color (s : string) : option rgba8 :=
  let l := trim_ws (list_ascii_of_string s) in
  match strip_prefix (list_ascii_of_string "rgba(") l with
  | Some rest =>
      match rev rest with
      | c :: inner_rev =>
          if ascii_dec c ")" then parse_rgba_args (rev inner_rev) else None
      | [] => None
      end
  | None => named_color (string_of_list_ascii l)
  end.

#[local] Close Scope string_scope.

(** Characters of a printed JS value. *)
Definition tok_char (c : ascii) : bool :=
  negb (is_css_ws c) && negb (Ascii.eqb c ",") && negb (Ascii.eqb c ")").

Lemma list_ascii_of_string_app s1 s2 :
  list_ascii_of_string (s1 ++ s2) = list_ascii_of_string s1 ++ list_ascii_of_string s2.
Proof. induction s1; simpl; f_equal; auto. Qed.

Lemma string_of_uint_tok d :
  Forall (fun c => tok_char c = true) (list_ascii_of_string (NilEmpty.string_of_uint d)).
Proof. induction d; simpl; constructor; auto. Qed.

Lemma js_to_string_tok v :
  Forall (fun c => tok_char c = true) (list_ascii_of_string (js_to_string v)).
Proof.
  destruct v as [z|]; [|repeat constructor].
  unfold js_to_string, NilZero.string_of_uint.
  destruct (N.to_uint _); destruct (z <? 0)%Z; simpl;
    repeat constructor; apply string_of_uint_tok.
Qed.

Lemma drop_ws_app_ws pre l :
  Forall (fun c => is_css_ws c = true) pre -> drop_ws (pre ++ l) = drop_ws l.
Proof. induction 1 as [|c pre Hc _ IH]; simpl; [done|]. by rewrite Hc. Qed.

Lemma drop_ws_head c l : is_css_ws c = false -> drop_ws (c :: l) = c :: l.
Proof. simpl. by intros ->. Qed.

Lemma drop_ws_tok l : Forall (fun c => tok_char c = true) l -> drop_ws l = l.
Proof.
  destruct 1 as [|c l Hc _]; [done|]. apply drop_ws_head.
  unfold tok_char in Hc. destruct (is_css_ws c); [discriminate | done].
Qed.

Lemma trim_ws_tok l : Forall (fun c => tok_char c = true) l -> trim_ws l = l.
Proof.
  intros H. unfold trim_ws. rewrite (drop_ws_tok l H).
  rewrite (drop_ws_tok (rev l)); [apply rev_involutive |]. by apply Forall_rev.
Qed.

Lemma trim_ws_frame pre post c mid d :
  Forall (fun x => is_css_ws x = true) pre -> Forall (fun x => is_css_ws x = true) post ->
  is_css_ws c = false -> is_css_ws d = false ->
  trim_ws (pre ++ (c :: mid ++ [d]) ++ post) = c :: mid ++ [d].
Proof.
  intros Hpre Hpost Hc Hd. unfold trim_ws.
  rewrite drop_ws_app_ws by done.
  rewrite <- app_comm_cons, drop_ws_head, app_comm_cons by done.
  rewrite rev_app_distr, drop_ws_app_ws by (by apply Forall_rev).
  rewrite app_comm_cons, rev_unit, drop_ws_head by done.
  by rewrite <- rev_unit, rev_involutive.
Qed.

Lemma split_on_nosep sep l : Forall (fun c => c <> sep) l -> split_on sep l = [l].
Proof.
  induction 1 as [|c l Hc _ IH]; simpl; [done|].
  destruct (ascii_dec c sep); [done|]. by rewrite IH.
Qed.

Lemma split_on_app sep w l :
  Forall (fun c => c <> sep) w -> split_on sep (w ++ sep :: l) = w :: split_on sep l.
Proof.
  induction 1 as [|c w Hc _ IH]; simpl.
  - destruct (ascii_dec sep sep); [done | congruence].
  - destruct (ascii_dec c sep); [done|]. by rewrite IH.
Qed.

Lemma tok_not_sep l sep :
  sep = ","%char \/ sep = ")"%char ->
  Forall (fun c => tok_char c = true) l -> Forall (fun c => c <> sep) l.
Proof.
  intros Hs H. eapply Forall_impl; [exact H|]. intros c Hc ->. unfold tok_char in Hc.
  destruct Hs as [-> | ->]; simpl in Hc; discriminate.
Qed.

Lemma parse_uint_js_to_string (z : Z) :
  (0 <= z)%Z -> parse_uint (list_ascii_of_string (js_to_string (Some z))) = Some z.
Proof.
  intros Hz. unfold parse_uint, js_to_string.
  rewrite (proj2 (Z.ltb_ge z 0) Hz), string_of_list_ascii_of_string.
  rewrite NilZero.usu.
  - simpl. rewrite DecimalN.Unsigned.of_to, Z2N.id by lia. f_equal; lia.
  - destruct (Z.to_N (Z.abs z)) as [|p]; [discriminate|].
    simpl. destruct (Pos.to_uint p) eqn:E; try discriminate.
    pose proof (DecimalPos.Unsigned.to_uint_nonnil p). contradiction.
Qed.

Definition js_chars (v : option Z) : list ascii := list_ascii_of_string (js_to_string v).

Definition parse_js_value (v : option Z) : option Z := parse_uint (js_chars v).

Lemma js_chars_nocomma v : Forall (fun c => c <> ","%char) (js_chars v).
Proof. apply tok_not_sep; [by left | apply js_to_string_tok]. Qed.

Lemma trim_strokeStyle_template r g b a :
  trim_ws (list_ascii_of_string (strokeStyle_template r g b a)) =
  list_ascii_of_string "rgba(" ++ js_chars r ++ ","%char :: js_chars g ++ ","%char ::
    js_chars b ++ ","%char :: js_chars a ++ [")"%char].
Proof.
  unfold strokeStyle_template. rewrite !list_ascii_of_string_app. unfold js_chars.
  set (R := list_ascii_of_string (js_to_string r)). set (G := list_ascii_of_string (js_to_string g)).
  set (B := list_ascii_of_string (js_to_string b)). set (A := list_ascii_of_string (js_to_string a)).
  pose proof (trim_ws_frame (list_ascii_of_string (newline ++ "      ")) (list_ascii_of_string (newline ++ "    "))
                "r"%char (list_ascii_of_string "gba(" ++ R ++ ","%char :: G ++ ","%char ::
                B ++ ","%char :: A) ")"%char) as H.
  simpl in H |- *. repeat (rewrite <- app_assoc in H; simpl in H).
  rewrite H by repeat constructor. by repeat (rewrite <- app_assoc; simpl).
Qed.

Lemma parse_strokeStyle_template r g b a :
  parse_css_color (strokeStyle_template r g b a) =
  match parse_js_value r, parse_js_value g, parse_js_value b, parse_js_value a with
  | Some r', Some g', Some b', Some a' =>
      Some (RGBA8 (clamp_byte r') (clamp_byte g') (clamp_byte b') (if (a' =? 0)%Z then 0 else 255))
  | _, _, _, _ => None
  end.
Proof.
  unfold parse_css_color. rewrite trim_strokeStyle_template. simpl.
  set (X := js_chars r ++ ","%char :: js_chars g ++ ","%char :: js_chars b ++ ","%char :: js_chars a).
  replace (js_chars r ++ _) with (X ++ [")"%char])
    by (unfold X; by repeat (rewrite <- app_assoc; simpl)).
  rewrite rev_unit. simpl. rewrite rev_involutive. unfold X, parse_rgba_args.
  rewrite !split_on_app, split_on_nosep by apply js_chars_nocomma.
  simpl. rewrite !trim_ws_tok by apply js_to_string_tok. done.
Qed.

Lemma parse_js_value_nonneg (z : Z) : (0 <= z)%Z -> parse_js_value (Some z) = Some z.
Proof. apply parse_uint_js_to_string. Qed.

(** C18 (strokeStyle_template_roundtrip): the stroke-style string of three bytes
    parses back to that opaque colour. *)
Theorem strokeStyle_template_roundtrip (r g b : Z) :
  is_byte r = true -> is_byte g = true -> is_byte b = true ->
  parse_css_color (strokeStyle_template (Some r) (Some g) (Some b) (Some 1%Z)) =
  Some (RGBA8 r g b 255).
Proof.
  intros Hr Hg Hb. apply is_byte_spec in Hr, Hg, Hb.
  rewrite parse_strokeStyle_template, !parse_js_value_nonneg by lia.
  rewrite !clamp_byte_id by lia. done.
Qed.

Lemma strokeStyle_template_roundtrip_witness :
  is_byte 255 = true /\ is_byte 165 = true /\ is_byte 0 = true /\
  parse_css_color (strokeStyle_template (Some 255%Z) (Some 165%Z) (Some 0%Z) (Some 1%Z)) =
  Some (RGBA8 255 165 0 255).
Proof.
  do 3 (split; [reflexivity|]). apply strokeStyle_template_roundtrip; reflexivity.
Defined.
