(* ===== verification/Canvas.v ===== *)
(** * The 2D canvas: [makeCtx] (src/script.js:9-23) and the methods the
    script calls, by the HTML canvas rules, as state passing on [context2d]:
    setters ignore invalid values; drawing methods append to the display
    list; [CanvasGradient]; [getImageData].  The raster paints the list in
    order ([raster_px]); which pixels a stroke covers is the parameter
    [coverage]. *)

From S2P Require Import Prelude Css.
From stdpp Require Import base list.
From Stdlib Require Import ZArith QArith Qminmax Qround Lia Psatz Reals String.

Record point := Pt { px : R; py : R }.

Inductive path_seg :=
| MoveTo (p : point)
| BezierTo (c1 c2 p : point).

Inductive line_join := JoinMiter | JoinRound | JoinBevel.
Inductive line_cap := CapButt | CapRound | CapSquare.

#[export] Instance line_join_eq_dec : EqDecision line_join.
Proof. solve_decision. Defined.
#[export] Instance line_cap_eq_dec : EqDecision line_cap.
Proof. solve_decision. Defined.

Record radial_gradient := RadialGradient {
  rg_x0 : Q; rg_y0 : Q; rg_r0 : Q;
  rg_x1 : Q; rg_y1 : Q; rg_r1 : Q;
  rg_stops : list (Q * rgba8)   (** sorted by offset, in insertion order on ties *)
}.

Inductive paint :=
| PColor (c : rgba8)
| PRadial (g : radial_gradient).

Inductive dom_error :=
| SurfaceUnavailable   (** [getContext("2d")] returned null (line 19) *)
| IndexSizeError       (** a negative radius, a colour-stop offset outside [0,1], an empty ImageData *)
| SyntaxError.         (** a colour-stop colour that does not parse *)

#[export] Instance dom_error_eq_dec : EqDecision dom_error.
Proof. solve_decision. Defined.

Definition createRadialGradient (x0 y0 r0 x1 y1 r1 : Q) : dom_error + radial_gradient :=
  if Qlt_le_dec r0 0 then inl IndexSizeError
  else if Qlt_le_dec r1 0 then inl IndexSizeError
  else inr (RadialGradient x0 y0 r0 x1 y1 r1 []).

(** A stop goes after those of offset not greater. *)
Fixpoint insert_stop (o : Q) (c : rgba8) (stops : list (Q * rgba8)) : list (Q * rgba8) :=
  match stops with
  | [] => [(o, c)]
  | (o', c') :: rest =>
      if Qlt_le_dec o o' then (o, c) :: stops else (o', c') :: insert_stop o c rest
  end.

Definition addColorStop `{Quantizer} (o : Q) (col : css_color) (g : radial_gradient)
  : dom_error + radial_gradient :=
  if Qlt_le_dec o 0 then inl IndexSizeError
  else if Qlt_le_dec 1 o then inl IndexSizeError
  else match resolve_color col with
       | None => inl SyntaxError
       | Some c => inr (RadialGradient (rg_x0 g) (rg_y0 g) (rg_r0 g) (rg_x1 g) (rg_y1 g)
                          (rg_r1 g) (insert_stop o c (rg_stops g)))
       end.

(** The colour at position [w]: end colours outside, linear in between. *)
Definition lerpQ (a b t : Q) : Q := a + (b - a) * t.

Lemma lerpQ_bounds (lo hi : Q) a b t :
  (lo <= a <= hi)%Q -> (lo <= b <= hi)%Q -> (0 <= t <= 1)%Q -> (lo <= lerpQ a b t <= hi)%Q.
Proof. unfold lerpQ. intros. nra. Qed.

Definition mix8 `{Quantizer} (c1 c2 : rgba8) (t : Q) : rgba8 :=
  RGBA8 (quantize (lerpQ (inject_Z (r8 c1)) (inject_Z (r8 c2)) t))
        (quantize (lerpQ (inject_Z (g8 c1)) (inject_Z (g8 c2)) t))
        (quantize (lerpQ (inject_Z (b8 c1)) (inject_Z (b8 c2)) t))
        (quantize (lerpQ (inject_Z (a8 c1)) (inject_Z (a8 c2)) t)).

Fixpoint color_after `{Quantizer} (prev : Q * rgba8) (rest : list (Q * rgba8)) (w : Q) : rgba8 :=
  match rest with
  | [] => snd prev
  | (o, c) :: rest' =>
      if Qlt_le_dec w o then mix8 (snd prev) c ((w - fst prev) / (o - fst prev))
      else color_after (o, c) rest' w
  end.

Definition gradient_color `{Quantizer} (stops : list (Q * rgba8)) (w : Q) : rgba8 :=
  match stops with
  | [] => transparent8
  | (o, c) :: rest => if Qlt_le_dec w o then c else color_after (o, c) rest w
  end.

(** The position [w] of the circle through a point.  Only the linear case
    [dx^2 + dy^2 = dr^2] (the script's) is modelled; otherwise [None]. *)
Definition radial_omega (g : radial_gradient) (x y : Q) : option Q :=
  let dx := rg_x1 g - rg_x0 g in
  let dy := rg_y1 g - rg_y0 g in
  let dr := rg_r1 g - rg_r0 g in
  let qx := x - rg_x0 g in
  let qy := y - rg_y0 g in
  let a := dx * dx + dy * dy - dr * dr in
  let b := qx * dx + qy * dy + rg_r0 g * dr in
  let c := qx * qx + qy * qy - rg_r0 g * rg_r0 g in
  if negb (Qeq_bool a 0) then None
  else if Qeq_bool b 0 then None
  else let w := c / (2 * b) in
       if Qle_bool 0 (rg_r0 g + w * dr) then Some w else None.

Definition paint_color `{Quantizer} (p : paint) (x y : Q) : rgba8 :=
  match p with
  | PColor c => c
  | PRadial g =>
      match radial_omega g x y with
      | Some w => gradient_color (rg_stops g) w
      | None => transparent8
      end
  end.

Record stroke_op := StrokeOp {
  so_path : list path_seg; so_width : Q; so_style : rgba8;
  so_join : line_join; so_cap : line_cap;
  so_scale : Z                       (** the transform the path was built under *)
}.

Inductive draw_op :=
| DClear (x y w h : Q)
| DFill (x y w h : Q) (scale : Z) (p : paint)
| DStroke (s : stroke_op).

Record context2d := Context2D {
  cv_width : Z; cv_height : Z;      (** canvas.width, canvas.height *)
  cv_scale : Z;                      (** the transform set by ctx.scale *)
  strokeStyle : rgba8; fillStyle : paint; lineWidth : Q;
  lineJoin : line_join; lineCap : line_cap;
  cur_path : list path_seg;          (** the current default path *)
  display : list draw_op             (** everything drawn, oldest first *)
}.

Definition with_style (c : context2d) (s : rgba8) : context2d :=
  Context2D (cv_width c) (cv_height c) (cv_scale c) s (fillStyle c) (lineWidth c)
            (lineJoin c) (lineCap c) (cur_path c) (display c).
Definition with_fill (c : context2d) (p : paint) : context2d :=
  Context2D (cv_width c) (cv_height c) (cv_scale c) (strokeStyle c) p (lineWidth c)
            (lineJoin c) (lineCap c) (cur_path c) (display c).
Definition with_width (c : context2d) (w : Q) : context2d :=
  Context2D (cv_width c) (cv_height c) (cv_scale c) (strokeStyle c) (fillStyle c) w
            (lineJoin c) (lineCap c) (cur_path c) (display c).
Definition with_join_cap (c : context2d) (j : line_join) (k : line_cap) : context2d :=
  Context2D (cv_width c) (cv_height c) (cv_scale c) (strokeStyle c) (fillStyle c) (lineWidth c)
            j k (cur_path c) (display c).
Definition with_path (c : context2d) (p : list path_seg) : context2d :=
  Context2D (cv_width c) (cv_height c) (cv_scale c) (strokeStyle c) (fillStyle c) (lineWidth c)
            (lineJoin c) (lineCap c) p (display c).
Definition with_op (c : context2d) (op : draw_op) : context2d :=
  Context2D (cv_width c) (cv_height c) (cv_scale c) (strokeStyle c) (fillStyle c) (lineWidth c)
            (lineJoin c) (lineCap c) (cur_path c) (display c ++ [op]).

Definition black8 : rgba8 := RGBA8 0 0 0 255.

(** [makeCtx] (lines 9-23); [has2d]: the browser gives a 2D context. *)
Definition makeCtx (w h : Z) (pixelRatio : Z) (has2d : bool) : dom_error + context2d :=
  if negb has2d then inl SurfaceUnavailable
  else inr (Context2D (w * pixelRatio) (h * pixelRatio) pixelRatio black8 (PColor black8) 1
                      JoinMiter CapButt [] []).

Definition set_lineWidth (w : Q) (c : context2d) : context2d :=
  if Qlt_le_dec 0 w then with_width c w else c.

Definition set_strokeStyle (s : string) (c : context2d) : context2d :=
  match parse_css_color s with
  | Some col => with_style c col
  | None => c
  end.

Definition set_fillStyle (p : paint) (c : context2d) : context2d := with_fill c p.
Definition set_lineJoin (j : line_join) (c : context2d) : context2d := with_join_cap c j (lineCap c).
Definition set_lineCap (k : line_cap) (c : context2d) : context2d := with_join_cap c (lineJoin c) k.

Definition beginPath (c : context2d) : context2d := with_path c [].

Definition moveTo (p : point) (c : context2d) : context2d := with_path c (cur_path c ++ [MoveTo p]).

(** With no subpath, one starts at the first control point. *)
Definition bezierCurveTo (c1 c2 p : point) (c : context2d) : context2d :=
  let start := match cur_path c with [] => [MoveTo c1] | _ => [] end in
  with_path c (cur_path c ++ start ++ [BezierTo c1 c2 p]).

Definition clearRect (x y w h : Q) (c : context2d) : context2d :=
  let s := inject_Z (cv_scale c) in with_op c (DClear (s * x) (s * y) (s * w) (s * h)).

Definition fillRect (x y w h : Q) (c : context2d) : context2d :=
  let s := inject_Z (cv_scale c) in
  with_op c (DFill (s * x) (s * y) (s * w) (s * h) (cv_scale c) (fillStyle c)).

(** The path is kept, not consumed. *)
Definition stroke (c : context2d) : context2d :=
  with_op c (DStroke (StrokeOp (cur_path c) (lineWidth c) (strokeStyle c) (lineJoin c)
                               (lineCap c) (cv_scale c))).

(** ** The bitmap *)

(** Which device pixels a stroke paints: the rasterizer's geometry. *)
Definition coverage := stroke_op -> Z -> Z -> bool.

(** A pixel belongs to a rectangle when its centre does. *)
Definition center_in (x y w h : Q) (i j : Z) : bool :=
  let ci := inject_Z i + (1 # 2) in
  let cj := inject_Z j + (1 # 2) in
  Qle_bool (Qmin x (x + w)) ci && negb (Qle_bool (Qmax x (x + w)) ci) &&
  Qle_bool (Qmin y (y + h)) cj && negb (Qle_bool (Qmax y (y + h)) cj).

(** Source-over compositing of unpremultiplied pixels. *)
Definition source_over8 `{Quantizer} (s d : rgba8) : rgba8 :=
  let sa := inject_Z (a8 s) / 255 in
  let da := inject_Z (a8 d) / 255 in
  let oa := sa + da * (1 - sa) in
  if Qeq_bool oa 0 then transparent8
  else
    let ch (cs cd : Z) := (inject_Z cs * sa + inject_Z cd * da * (1 - sa)) / oa in
    RGBA8 (quantize (ch (r8 s) (r8 d))) (quantize (ch (g8 s) (g8 d)))
          (quantize (ch (b8 s) (b8 d))) (quantize (255 * oa)).

Definition draw_px `{Quantizer} (cov : coverage) (i j : Z) (acc : rgba8) (op : draw_op) : rgba8 :=
  match op with
  | DClear x y w h => if center_in x y w h i j then transparent8 else acc
  | DFill x y w h s p =>
      if center_in x y w h i j then
        source_over8 (paint_color p ((inject_Z i + (1 # 2)) / inject_Z s)
                                    ((inject_Z j + (1 # 2)) / inject_Z s)) acc
      else acc
  | DStroke so => if cov so i j then source_over8 (so_style so) acc else acc
  end.

(** The pixel [(i, j)] after a display list, in painter's order. *)
Definition raster_px `{Quantizer} (cov : coverage) (ops : list draw_op) (i j : Z) : rgba8 :=
  fold_left (draw_px cov i j) ops transparent8.

Definition canvas_px `{Quantizer} (cov : coverage) (c : context2d) (i j : Z) : rgba8 :=
  if (0 <=? i)%Z && (i <? cv_width c)%Z && (0 <=? j)%Z && (j <? cv_height c)%Z
  then raster_px cov (display c) i j else transparent8.

Record image_data := ImageData { id_width : Z; id_height : Z; id_data : list Z }.

(** [getImageData(sx, sy, sw, sh)]: the pixels of the rectangle, row by
    row, four bytes each. *)
Definition getImageData `{Quantizer} (cov : coverage) (sx sy sw sh : Z) (c : context2d)
  : dom_error + image_data :=
  if (sw =? 0)%Z || (sh =? 0)%Z then inl IndexSizeError
  else
    let x0 := Z.min sx (sx + sw) in
    let y0 := Z.min sy (sy + sh) in
    let rows := map (fun j => map (fun i => canvas_px cov c i j) (seqZ x0 (Z.abs sw)))
                    (seqZ y0 (Z.abs sh)) in
    inr (ImageData (Z.abs sw) (Z.abs sh) (flatten_rgba (List.concat rows))).

(** ** Lemmas on compositing and the raster *)

Section CanvasFacts.
Context `{Quantizer}.

(** A quantized expression equal to an integer is that integer. *)
Lemma quantize_eq (q : Q) (z : Z) : (q == inject_Z z)%Q -> quantize q = z.
Proof. intros E. rewrite E. apply quantize_Z. Qed.

(** An opaque source replaces the destination. *)
Lemma source_over8_opaque s d : a8 s = 255%Z -> source_over8 s d = s.
Proof.
  destruct s as [r g b a]; simpl; intros ->. unfold source_over8; cbn [a8 r8 g8 b8].
  assert (E1 : (inject_Z 255 / 255 == 1)%Q) by reflexivity.
  set (da := inject_Z (a8 d) / 255).
  assert (Eoa : (inject_Z 255 / 255 + da * (1 - inject_Z 255 / 255) == 1)%Q)
    by (rewrite E1; ring).
  destruct (Qeq_bool _ 0) eqn:E.
  { apply Qeq_bool_iff in E. rewrite Eoa in E. discriminate. }
  f_equal; apply quantize_eq; rewrite Eoa; rewrite ?E1; [field.. | reflexivity].
Qed.

(** Over a transparent pixel, a source shows as itself, or as
    transparent black when it has no alpha. *)
Lemma source_over8_transparent s :
  rgba8_ok s = true ->
  source_over8 s transparent8 = if (a8 s =? 0)%Z then transparent8 else s.
Proof.
  destruct s as [r g b a]; unfold rgba8_ok; simpl; intros Hok.
  assert (Ha : (0 <= a <= 255)%Z) by byte_lia.
  unfold source_over8; cbn [a8 r8 g8 b8 transparent8].
  assert (Eoa : (inject_Z a / 255 + inject_Z 0 / 255 * (1 - inject_Z a / 255) == inject_Z a / 255)%Q)
    by (unfold Qdiv; simpl; ring).
  destruct (Z.eqb_spec a 0) as [-> | Hne].
  { by rewrite Eoa. }
  destruct (Qeq_bool _ 0) eqn:E.
  { apply Qeq_bool_iff in E. rewrite Eoa in E. exfalso. apply Hne.
    apply (proj1 (inject_Z_injective a 0)). change (inject_Z 0) with 0%Q.
    assert (Ex : (inject_Z a == inject_Z a / 255 * 255)%Q) by field.
    rewrite Ex, E. reflexivity. }
  assert (Hq : ~ (inject_Z a == inject_Z 0)%Q) by (rewrite inject_Z_injective; lia).
  f_equal; apply quantize_eq; rewrite Eoa; [field; exact Hq.. | field].
Qed.

(** For a rectangle of non-negative size, membership of the pixel centre. *)
Lemma center_in_pos x y w h i j :
  (0 <= w)%Q -> (0 <= h)%Q ->
  center_in x y w h i j = true <->
  (x <= inject_Z i + (1 # 2) < x + w)%Q /\ (y <= inject_Z j + (1 # 2) < y + h)%Q.
Proof.
  intros Hw Hh. unfold center_in.
  rewrite (Q.min_l x), (Q.max_r x), (Q.min_l y), (Q.max_r y) by lra.
  rewrite !andb_true_iff, !negb_true_iff, !Qle_bool_iff.
  split.
  - intros [[[H1 H2] H3] H4]. apply Bool.not_true_iff_false in H2, H4.
    rewrite Qle_bool_iff in H2, H4. repeat split; lra.
  - intros [[H1 H2] [H3 H4]]. repeat split; try lra;
      apply Bool.not_true_iff_false; rewrite Qle_bool_iff; lra.
Qed.

Lemma raster_px_app cov ops1 ops2 i j :
  raster_px cov (ops1 ++ ops2) i j = fold_left (draw_px cov i j) ops2 (raster_px cov ops1 i j).
Proof. apply fold_left_app. Qed.

(** A clear covering the pixel forgets everything drawn before it. *)
Lemma raster_px_clear cov pre x y w h post i j :
  center_in x y w h i j = true ->
  raster_px cov (pre ++ DClear x y w h :: post) i j = raster_px cov post i j.
Proof. intros Hin. rewrite raster_px_app. simpl. by rewrite Hin. Qed.
End CanvasFacts.
