(* ===== verification/Layer.v ===== *)
(** * The curve layer: [drawOnCtx] (src/script.js:122-162).  One call
    clears the canvas, builds a path of five Bezier segments and strokes it
    25 times (widths 50..2), pass [l] with table pixel [l]; pass 25 reads
    past the 25-pixel table, its style string is invalid and ignored, and it
    keeps the previous style.  Theorems: the display list of a call, the stale widest pass, the style a run of calls
    leaves. *)

From S2P Require Import Prelude Css Canvas.
From stdpp Require Import base list.
From Stdlib Require Import ZArith QArith Lia Psatz Reals.

#[local] Open Scope R_scope.

Definition polar (cx cy ang rad : R) : point := Pt (cx + cos ang * rad) (cy + sin ang * rad).

(** The control points and end point of segment [i] (lines 139-146). *)
Definition cp1 (cx cy e : R) (i : nat) : point :=
  let i := INR i in polar cx cy (i * 20 + e + i * 50) (100 + i * 10 + e).
Definition cp2 (cx cy e : R) (i : nat) : point :=
  let i := INR i in polar cx cy (i * 30 + e * 2) (200 + i * 40 + i).
Definition endp (cx cy : R) (i : nat) : point :=
  let i := INR i in polar cx cy (i * 10) (300 + i * 10).

(** The [for] loop of lines 138-147: [n] iterations from [i]. *)
Fixpoint bezier_loop (cx cy e : R) (i n : nat) (c : context2d) : context2d :=
  match n with
  | O => c
  | S n' => bezier_loop cx cy e (S i) n' (bezierCurveTo (cp1 cx cy e i) (cp2 cx cy e i) (endp cx cy i) c)
  end.

(** The literal 25 of lines 45, 46 and 149. *)
Definition passes : nat := 25.

(** Pass [l] (lines 150-160); a read past the end is [undefined]. *)
Definition stroke_pass (data : list Z) (l : nat) (c : context2d) : context2d :=
  let c1 := set_lineWidth (inject_Z (Z.of_nat l * 2)) c in
  let r := data !! (l * 4)%nat in
  let g := data !! (l * 4 + 1)%nat in
  let b := data !! (l * 4 + 2)%nat in
  stroke (set_strokeStyle (strokeStyle_template r g b (Some 1%Z)) c1).

(** The loop of line 149, [step = 1]: passes [l], ..., [1]. *)
Fixpoint stroke_loop (data : list Z) (l : nat) (c : context2d) : context2d :=
  match l with
  | O => c
  | S l' => stroke_loop data l' (stroke_pass data l c)
  end.

Definition drawOnCtx (innerWidth : Z) (ctx : context2d) (data : image_data) (e cy : R) : context2d :=
  let c0 := clearRect 0 0 (inject_Z (cv_width ctx)) (inject_Z (cv_height ctx)) ctx in
  let cx := IZR innerWidth / 2 in
  let c1 := moveTo (Pt cx cy) (beginPath c0) in
  let c2 := bezier_loop cx cy e 0 5 c1 in
  stroke_loop (id_data data) passes c2.

Definition curve_path (cx cy e : R) : list path_seg :=
  MoveTo (Pt cx cy) :: map (fun i => BezierTo (cp1 cx cy e i) (cp2 cx cy e i) (endp cx cy i)) (seq 0 5).

Definition table_color (data : list Z) (l : nat) : rgba8 :=
  RGBA8 (default 0%Z (data !! (l * 4)%nat)) (default 0%Z (data !! (l * 4 + 1)%nat))
        (default 0%Z (data !! (l * 4 + 2)%nat)) 255.

Definition pass_style (data : list Z) (l : nat) (prev : rgba8) : rgba8 :=
  default prev (parse_css_color (strokeStyle_template (data !! (l * 4)%nat)
                  (data !! (l * 4 + 1)%nat) (data !! (l * 4 + 2)%nat) (Some 1%Z))).

Definition pass_op (c : context2d) (l : nat) (style : rgba8) : draw_op :=
  DStroke (StrokeOp (cur_path c) (inject_Z (Z.of_nat l * 2)) style (lineJoin c) (lineCap c) (cv_scale c)).

Lemma with_path_path c p q : with_path (with_path c p) q = with_path c q.
Proof. by destruct c. Qed.

Lemma bezier_loop_path cx cy e i n c :
  cur_path c <> [] ->
  bezier_loop cx cy e i n c =
  with_path c (cur_path c ++ map (fun k => BezierTo (cp1 cx cy e k) (cp2 cx cy e k) (endp cx cy k)) (seq i n)).
Proof.
  revert i c. induction n as [|n IH]; intros i c Hc; simpl.
  - rewrite app_nil_r. by destruct c.
  - unfold bezierCurveTo. destruct (cur_path c) as [|s p] eqn:Ep; [done|].
    rewrite IH by (destruct c; simpl; done). rewrite with_path_path.
    destruct c; simpl in *; subst. by rewrite <- app_assoc.
Qed.

Lemma pass_style_in data l prev :
  (l * 4 + 2 < length data)%nat -> Forall (fun z => is_byte z = true) data ->
  pass_style data l prev = table_color data l.
Proof.
  intros Hl Hb. unfold pass_style, table_color.
  rewrite parse_strokeStyle_template.
  destruct (lookup_lt_is_Some_2 data (l * 4)%nat) as [r Hr]; [lia|].
  destruct (lookup_lt_is_Some_2 data (l * 4 + 1)%nat) as [g Hg]; [lia|].
  destruct (lookup_lt_is_Some_2 data (l * 4 + 2)%nat) as [b Hbb]; [lia|].
  rewrite Hr, Hg, Hbb.
  pose proof (proj1 (Forall_lookup _ _) Hb _ _ Hr) as Br.
  pose proof (proj1 (Forall_lookup _ _) Hb _ _ Hg) as Bg.
  pose proof (proj1 (Forall_lookup _ _) Hb _ _ Hbb) as Bb.
  apply is_byte_spec in Br, Bg, Bb.
  rewrite !parse_js_value_nonneg by lia. simpl. rewrite !clamp_byte_id by lia. done.
Qed.

Lemma pass_style_out data l prev :
  (length data <= l * 4)%nat -> pass_style data l prev = prev.
Proof.
  intros Hl. unfold pass_style. rewrite parse_strokeStyle_template.
  rewrite (lookup_ge_None_2 data (l * 4)%nat) by lia. done.
Qed.

Lemma stroke_pass_display data l c :
  (0 < l)%nat ->
  display (stroke_pass data l c) = display c ++ [pass_op c l (pass_style data l (strokeStyle c))].
Proof.
  intros Hl. unfold stroke_pass, set_lineWidth, set_strokeStyle, pass_style, pass_op.
  destruct (Qlt_le_dec 0 _) as [_|Hw].
  - destruct (parse_css_color _); by destruct c.
  - exfalso. unfold Qle in Hw. simpl in Hw. lia.
Qed.

Lemma stroke_pass_style data l c :
  strokeStyle (stroke_pass data l c) = pass_style data l (strokeStyle c).
Proof.
  unfold stroke_pass, set_lineWidth, set_strokeStyle, pass_style.
  destruct (Qlt_le_dec 0 _), (parse_css_color _); by destruct c.
Qed.

Lemma stroke_pass_frame data l c :
  cur_path (stroke_pass data l c) = cur_path c /\ lineJoin (stroke_pass data l c) = lineJoin c /\
  lineCap (stroke_pass data l c) = lineCap c /\ cv_scale (stroke_pass data l c) = cv_scale c.
Proof.
  unfold stroke_pass, set_lineWidth, set_strokeStyle.
  destruct (Qlt_le_dec 0 _), (parse_css_color _); by destruct c.
Qed.

Fixpoint loop_ops (data : list Z) (l : nat) (c : context2d) (prev : rgba8) : list draw_op :=
  match l with
  | O => []
  | S l' => let s := pass_style data l prev in pass_op c l s :: loop_ops data l' c s
  end.

Fixpoint loop_style (data : list Z) (l : nat) (prev : rgba8) : rgba8 :=
  match l with
  | O => prev
  | S l' => loop_style data l' (pass_style data l prev)
  end.

Lemma pass_op_frame c c' l s :
  cur_path c' = cur_path c -> lineJoin c' = lineJoin c -> lineCap c' = lineCap c ->
  cv_scale c' = cv_scale c -> pass_op c' l s = pass_op c l s.
Proof. unfold pass_op. intros -> -> -> ->. done. Qed.

Lemma loop_ops_frame data l c c' s :
  cur_path c' = cur_path c -> lineJoin c' = lineJoin c -> lineCap c' = lineCap c ->
  cv_scale c' = cv_scale c -> loop_ops data l c' s = loop_ops data l c s.
Proof.
  intros H1 H2 H3 H4. revert s. induction l as [|l IH]; intros s; simpl; [done|].
  by rewrite (pass_op_frame c), IH.
Qed.

Lemma stroke_loop_spec data l c :
  display (stroke_loop data l c) = display c ++ loop_ops data l c (strokeStyle c) /\
  strokeStyle (stroke_loop data l c) = loop_style data l (strokeStyle c) /\
  cur_path (stroke_loop data l c) = cur_path c.
Proof.
  revert c. induction l as [|l IH]; intros c; simpl.
  - by rewrite app_nil_r.
  - destruct (IH (stroke_pass data (S l) c)) as (E1 & E2 & E3).
    destruct (stroke_pass_frame data (S l) c) as (F1 & F2 & F3 & F4).
    rewrite E1, E2, E3, F1, stroke_pass_display, stroke_pass_style, <- app_assoc by lia.
    rewrite (loop_ops_frame data l c) by done. done.
Qed.

Lemma loop_ops_first data c s :
  loop_ops data passes c s =
  pass_op c passes (pass_style data passes s) :: loop_ops data (passes - 1) c (pass_style data passes s).
Proof. reflexivity. Qed.

Lemma loop_style_first data s :
  loop_style data passes s = loop_style data (passes - 1) (pass_style data passes s).
Proof. reflexivity. Qed.

(** 25 pixels of bytes. *)
Definition table_ok (data : image_data) : bool :=
  (length (id_data data) =? 4 * passes)%nat && forallb is_byte (id_data data).

Lemma table_ok_spec data :
  table_ok data = true ->
  length (id_data data) = (4 * passes)%nat /\ Forall (fun z => is_byte z = true) (id_data data).
Proof.
  unfold table_ok. rewrite andb_true_iff, Nat.eqb_eq, forallb_forall, List.Forall_forall. tauto.
Qed.

Lemma loop_ops_in data l c s :
  (l < passes)%nat -> length data = (4 * passes)%nat -> Forall (fun z => is_byte z = true) data ->
  loop_ops data l c s = map (fun k => pass_op c k (table_color data k)) (rev (seq 1 l)).
Proof.
  intros Hl Hlen Hb. revert s. induction l as [|l IH]; intros s; [done|].
  simpl loop_ops. rewrite pass_style_in, IH by (done || unfold passes in *; lia).
  rewrite seq_S, rev_app_distr. done.
Qed.

Lemma loop_style_in data l s :
  (0 < l < passes)%nat -> length data = (4 * passes)%nat -> Forall (fun z => is_byte z = true) data ->
  loop_style data l s = table_color data 1.
Proof.
  intros Hl Hlen Hb. revert s. induction l as [|l IH]; intros s; [lia|].
  simpl. destruct l as [|l].
  - simpl. apply pass_style_in; [unfold passes in *; lia | done].
  - apply IH. lia.
Qed.

Definition drawOnCtx_path_ctx (innerWidth : Z) (ctx : context2d) (e cy : R) : context2d :=
  bezier_loop (IZR innerWidth / 2) cy e 0 5
    (moveTo (Pt (IZR innerWidth / 2) cy)
       (beginPath (clearRect 0 0 (inject_Z (cv_width ctx)) (inject_Z (cv_height ctx)) ctx))).

Lemma drawOnCtx_path_ctx_spec w ctx e cy :
  let c2 := drawOnCtx_path_ctx w ctx e cy in
  let s := inject_Z (cv_scale ctx) in
  display c2 = display ctx ++ [DClear (s * 0) (s * 0) (s * inject_Z (cv_width ctx)) (s * inject_Z (cv_height ctx))] /\
  cur_path c2 = curve_path (IZR w / 2) cy e /\ strokeStyle c2 = strokeStyle ctx /\
  lineJoin c2 = lineJoin ctx /\ lineCap c2 = lineCap ctx /\ cv_scale c2 = cv_scale ctx.
Proof.
  unfold drawOnCtx_path_ctx. rewrite bezier_loop_path by (by destruct ctx).
  destruct ctx. repeat split.
Qed.

Definition layer_op (innerWidth : Z) (ctx : context2d) (e cy : R) (l : nat) (style : rgba8) : draw_op :=
  DStroke (StrokeOp (curve_path (IZR innerWidth / 2) cy e) (inject_Z (Z.of_nat l * 2)) style
                    (lineJoin ctx) (lineCap ctx) (cv_scale ctx)).

(** What one call appends: the clear, the widest stroke in the style from
    before, then the strokes of table pixels 24 .. 1. *)
Definition call_ops (w : Z) (ctx : context2d) (data : image_data) (e cy : R) : list draw_op :=
  let s := inject_Z (cv_scale ctx) in
  DClear (s * 0) (s * 0) (s * inject_Z (cv_width ctx)) (s * inject_Z (cv_height ctx))
  :: layer_op w ctx e cy passes (strokeStyle ctx)
  :: map (fun l => layer_op w ctx e cy l (table_color (id_data data) l)) (rev (seq 1 (passes - 1))).

Lemma pass_op_layer w ctx e cy l s :
  pass_op (drawOnCtx_path_ctx w ctx e cy) l s = layer_op w ctx e cy l s.
Proof.
  destruct (drawOnCtx_path_ctx_spec w ctx e cy) as (_ & P & _ & J & K & S).
  unfold pass_op, layer_op. by rewrite P, J, K, S.
Qed.

Lemma drawOnCtx_display_ops w ctx data e cy :
  table_ok data = true -> display (drawOnCtx w ctx data e cy) = display ctx ++ call_ops w ctx data e cy.
Proof.
  intros Hok. destruct (table_ok_spec data Hok) as [Hlen Hb].
  destruct (drawOnCtx_path_ctx_spec w ctx e cy) as (D & _ & St & _).
  destruct (stroke_loop_spec (id_data data) passes (drawOnCtx_path_ctx w ctx e cy)) as (E & _ & _).
  unfold drawOnCtx. fold (drawOnCtx_path_ctx w ctx e cy). rewrite E, D, St, <- app_assoc.
  f_equal. unfold call_ops. rewrite loop_ops_first. cbn [app]. rewrite pass_style_out by (unfold passes in *; lia).
  rewrite loop_ops_in by (done || unfold passes; lia).
  rewrite pass_op_layer. do 2 f_equal. all: apply map_ext; intros; apply pass_op_layer.
Qed.

(** C4 (drawOnCtx_display): one call on a 25-pixel table appends a clear of
    the canvas, then 25 strokes of one path with widths 50, 48, ..., 2: the
    widest with the style from before the call, width [2 l] with table pixel
    [l]. *)
Theorem drawOnCtx_display w ctx data e cy :
  table_ok data = true -> display (drawOnCtx w ctx data e cy) = display ctx ++ call_ops w ctx data e cy.
Proof. exact (drawOnCtx_display_ops w ctx data e cy). Qed.

Lemma stroke_loop_frame data l c :
  lineJoin (stroke_loop data l c) = lineJoin c /\ lineCap (stroke_loop data l c) = lineCap c /\
  cv_scale (stroke_loop data l c) = cv_scale c /\ cv_width (stroke_loop data l c) = cv_width c /\
  cv_height (stroke_loop data l c) = cv_height c.
Proof.
  revert c. induction l as [|l IH]; intros c; simpl; [done|].
  destruct (IH (stroke_pass data (S l) c)) as (-> & -> & -> & -> & ->).
  unfold stroke_pass, set_lineWidth, set_strokeStyle.
  destruct (Qlt_le_dec 0 _), (parse_css_color _); by destruct c.
Qed.

Lemma drawOnCtx_frame w ctx data e cy :
  let c := drawOnCtx w ctx data e cy in
  lineJoin c = lineJoin ctx /\ lineCap c = lineCap ctx /\ cv_scale c = cv_scale ctx /\
  cv_width c = cv_width ctx /\ cv_height c = cv_height ctx.
Proof.
  unfold drawOnCtx. fold (drawOnCtx_path_ctx w ctx e cy).
  destruct (stroke_loop_frame (id_data data) passes (drawOnCtx_path_ctx w ctx e cy)) as (-> & -> & -> & -> & ->).
  destruct (drawOnCtx_path_ctx_spec w ctx e cy) as (_ & _ & _ & J & K & S).
  rewrite J, K, S. unfold drawOnCtx_path_ctx. rewrite bezier_loop_path by (by destruct ctx).
  by destruct ctx.
Qed.

Lemma drawOnCtx_strokeStyle w ctx data e cy :
  table_ok data = true -> strokeStyle (drawOnCtx w ctx data e cy) = table_color (id_data data) 1.
Proof.
  intros Hok. destruct (table_ok_spec data Hok) as [Hlen Hb].
  unfold drawOnCtx. fold (drawOnCtx_path_ctx w ctx e cy).
  destruct (stroke_loop_spec (id_data data) passes (drawOnCtx_path_ctx w ctx e cy)) as (_ & -> & _).
  rewrite loop_style_first. apply loop_style_in; (done || unfold passes; lia).
Qed.

Lemma drawOnCtx_widest_op w ctx data e cy :
  table_ok data = true ->
  nth_error (display (drawOnCtx w ctx data e cy)) (S (length (display ctx))) =
  Some (layer_op w ctx e cy passes (strokeStyle ctx)).
Proof.
  intros Hok. rewrite drawOnCtx_display_ops by done.
  by rewrite nth_error_app2, Nat.sub_succ_l, Nat.sub_diag by lia.
Qed.

Definition widest_stroke (before after : context2d) : option draw_op :=
  nth_error (display after) (S (length (display before))).

(** C1 (drawOnCtx_widest_pass_stale): the widest pass reads past the table
    and strokes with the style from before: black on a fresh context, pixel 1
    of the table on one already drawn with it. *)
Theorem drawOnCtx_widest_pass_stale w w' h0 r0 ctx0 ctx data e e' cy cy' :
  table_ok data = true ->
  makeCtx w' h0 r0 true = inr ctx0 ->
  widest_stroke ctx0 (drawOnCtx w ctx0 data e cy) = Some (layer_op w ctx0 e cy passes black8) /\
  let ctx1 := drawOnCtx w ctx data e cy in
  widest_stroke ctx1 (drawOnCtx w' ctx1 data e' cy') =
  Some (layer_op w' ctx1 e' cy' passes (table_color (id_data data) 1)).
Proof.
  intros Hok Hmk. unfold widest_stroke. split.
  - unfold makeCtx in Hmk. simpl in Hmk. injection Hmk as <-.
    by rewrite drawOnCtx_widest_op.
  - by rewrite drawOnCtx_widest_op, drawOnCtx_strokeStyle.
Qed.

(** Calls [(innerWidth, e, cy)] on one context with one table. *)
Definition draw_calls (ctx : context2d) (data : image_data) (calls : list (Z * R * R)) : context2d :=
  fold_left (fun c '(w, e, cy) => drawOnCtx w c data e cy) calls ctx.

(** C19 (draw_calls_strokeStyle): after a non-empty run of calls with a
    25-pixel table, the stroke style is table pixel 1's colour. *)
Theorem draw_calls_strokeStyle ctx data calls :
  table_ok data = true -> calls <> [] ->
  strokeStyle (draw_calls ctx data calls) = table_color (id_data data) 1.
Proof.
  intros Hok Hne. unfold draw_calls. revert ctx.
  induction calls as [|[[w e] cy] calls IH]; intros ctx; [done|]. simpl.
  destruct calls as [|call calls'].
  - simpl. by apply drawOnCtx_strokeStyle.
  - apply IH. discriminate.
Qed.

(** ** Witnesses *)

Definition sample_table : image_data :=
  ImageData 1 25 (flatten_rgba (map (fun k => RGBA8 (10 * k) (10 * k) (10 * k) 255) (seqZ 0 25))).

Definition sample_ctx : context2d :=
  Context2D 10 10 1 black8 (PColor black8) 1 JoinRound CapRound [] [].

Lemma drawOnCtx_display_witness :
  table_ok sample_table = true /\
  display (drawOnCtx 10 sample_ctx sample_table 0 5) = call_ops 10 sample_ctx sample_table 0 5.
Proof.
  split; [vm_compute; reflexivity|]. apply (drawOnCtx_display 10 sample_ctx sample_table 0 5).
  vm_compute. reflexivity.
Defined.

Lemma drawOnCtx_widest_pass_stale_witness :
  let ctx0 := Context2D 10 1 1 black8 (PColor black8) 1 JoinMiter CapButt [] [] in
  table_ok sample_table = true /\ makeCtx 10 1 1 true = inr ctx0 /\
  widest_stroke ctx0 (drawOnCtx 10 ctx0 sample_table 0 5) = Some (layer_op 10 ctx0 0 5 passes black8) /\
  let ctx1 := drawOnCtx 10 sample_ctx sample_table 0 5 in
  widest_stroke ctx1 (drawOnCtx 10 ctx1 sample_table 1 5) =
  Some (layer_op 10 ctx1 1 5 passes (RGBA8 10 10 10 255)).
Proof.
  intros ctx0. split; [vm_compute; reflexivity|]. split; [reflexivity|].
  apply (drawOnCtx_widest_pass_stale 10 10 1 1 ctx0 sample_ctx sample_table 0 1 5 5);
    vm_compute; reflexivity.
Defined.

Lemma draw_calls_strokeStyle_witness :
  table_ok sample_table = true /\
  strokeStyle (draw_calls sample_ctx sample_table [(10%Z, 0, 5); (10%Z, 1, 5)]) = RGBA8 10 10 10 255.
Proof.
  split; [vm_compute; reflexivity|].
  apply (draw_calls_strokeStyle sample_ctx sample_table [(10%Z, 0, 5); (10%Z, 1, 5)]);
    [vm_compute; reflexivity | discriminate].
Defined.
