(* ===== verification/Loop.v ===== *)
(** * The stroke loop as JavaScript runs it (src/script.js:126, 149-161):
    [for (let l = 25; l > 0; l -= step)] with a numeric counter ([Z]) and
    [const step = 1].  [js_for_down] runs the loop on fuel, one unit per
    test of [l > 0], and gives [None] when the fuel runs out.  Theorems:
    with a positive step the loop ends within [l + 1] tests, and with the
    script's step it is [Layer.stroke_loop]. *)

From S2P Require Import Prelude Css Canvas Layer.
From stdpp Require Import base list.
From Stdlib Require Import ZArith Lia.

(** [const step = 1] (line 126). *)
Definition step : Z := 1.

(** [for (let l = l0; l > 0; l -= step) body]: test, body, update. *)
Fixpoint js_for_down {A} (fuel : nat) (step l : Z) (body : Z -> A -> A) (s : A) : option A :=
  match fuel with
  | O => None
  | S f => if (0 <? l)%Z then js_for_down f step (l - step) body (body l s) else Some s
  end.

(** The loop body (lines 150-160) at counter [l]. *)
Definition stroke_body (data : list Z) (l : Z) (c : context2d) : context2d :=
  stroke_pass data (Z.to_nat l) c.

(** The counter decreases by [step] at each test it passes: [Z.to_nat l]
    is the variant, so [l + 1] tests suffice. *)
Lemma js_for_down_some {A} fuel s l body (x : A) :
  (0 < s)%Z -> (Z.to_nat l < fuel)%nat -> exists x', js_for_down fuel s l body x = Some x'.
Proof.
  intros Hs. revert l x. induction fuel as [|f IH]; intros l x Hf; [lia|].
  cbn [js_for_down]. destruct (Z.ltb_spec 0 l); [apply IH; lia | by eexists].
Qed.

(** With [step = 1] the loop from [n] is [Layer.stroke_loop] from [n]. *)
Lemma js_for_down_stroke_loop data fuel n c :
  (n < fuel)%nat -> js_for_down fuel step (Z.of_nat n) (stroke_body data) c = Some (stroke_loop data n c).
Proof.
  revert fuel c. induction n as [|n IH]; intros [|f] c Hf; try lia; [done|].
  cbn [js_for_down]. replace (0 <? Z.of_nat (S n))%Z with true by (symmetry; apply Z.ltb_lt; lia).
  replace (Z.of_nat (S n) - step)%Z with (Z.of_nat n) by (unfold step; lia).
  unfold stroke_body. rewrite Nat2Z.id. apply IH. lia.
Qed.

(** C6 (stroke_for_terminates): the stroke loop with any positive step ends
    within [l + 1] tests of [l > 0]; with the script's [step = 1] its 26 tests
    end in the state [Layer.stroke_loop] gives, the one [drawOnCtx] uses. *)
Theorem stroke_for_terminates data c s l fuel :
  (0 < s)%Z -> (Z.to_nat l < fuel)%nat ->
  (exists c', js_for_down fuel s l (stroke_body data) c = Some c') /\
  js_for_down (S passes) step (Z.of_nat passes) (stroke_body data) c = Some (stroke_loop data passes c).
Proof.
  intros Hs Hf. split; [by apply js_for_down_some|]. apply js_for_down_stroke_loop. lia.
Qed.

(** ** Witnesses *)

Lemma stroke_for_terminates_witness :
  (0 < step)%Z /\ (Z.to_nat 25 < 26)%nat /\
  js_for_down 26 step 25 (stroke_body (id_data sample_table)) sample_ctx =
    Some (stroke_loop (id_data sample_table) passes sample_ctx).
Proof.
  split; [reflexivity|]. split; [lia|].
  exact (proj2 (stroke_for_terminates (id_data sample_table) sample_ctx step 25 26 eq_refl
                  ltac:(lia))).
Defined.
