(* ===== verification/Geometry.v ===== *)
(** * The curve's geometry (src/script.js:139-146): the points of a
    segment ([Layer.cp1], [cp2], [endp]) and the Bezier point the canvas
    draws.  The first control point's radius [100 + 10 i + e] grows with
    the phase [e] (seconds plus strand index), though the spec (4.2) calls
    the curve a "continuously-deforming rosette". *)

From S2P Require Import Prelude Canvas Layer.
From Stdlib Require Import Reals Lra Psatz.

#[local] Open Scope R_scope.

Definition bezier_point (p0 p1 p2 p3 : point) (t : R) : point :=
  let b0 := (1 - t) ^ 3 in
  let b1 := 3 * (1 - t) ^ 2 * t in
  let b2 := 3 * (1 - t) * t ^ 2 in
  let b3 := t ^ 3 in
  Pt (b0 * px p0 + b1 * px p1 + b2 * px p2 + b3 * px p3)
     (b0 * py p0 + b1 * py p1 + b2 * py p2 + b3 * py p3).


Definition on_canvas (W H : R) (p : point) : Prop := 0 <= px p <= W /\ 0 <= py p <= H.

Lemma cos2_sin2 a : cos a ^ 2 + sin a ^ 2 = 1.
Proof. pose proof (sin2_cos2 a) as E. unfold Rsqr in E. nra. Qed.


Lemma unit_dot_ge a b : -1 <= cos a * cos b + sin a * sin b.
Proof.
  pose proof (cos2_sin2 a). pose proof (cos2_sin2 b).
  pose proof (pow2_ge_0 (cos a + cos b)). pose proof (pow2_ge_0 (sin a + sin b)). nra.
Qed.

Lemma mul_trig_le (c d : R) : -1 <= c <= 1 -> c * d <= Rabs d.
Proof.
  intros Hc. apply (Rle_trans _ (Rabs (c * d))); [apply Rle_abs|]. rewrite Rabs_mult.
  pose proof (Rabs_pos d). assert (Rabs c <= 1) by (apply Rabs_le; lra). nra.
Qed.

Lemma proj_le_abs a dx dy : cos a * dx + sin a * dy <= Rabs dx + Rabs dy.
Proof.
  pose proof (mul_trig_le (cos a) dx (COS_bound a)).
  pose proof (mul_trig_le (sin a) dy (SIN_bound a)). lra.
Qed.

(** The [t = 1/3] point projected on the first control point's direction. *)
Lemma third_point_proj cx cy a1 r1 a2 r2 a3 r3 :
  0 <= r2 -> 0 <= r3 ->
  let b := bezier_point (Pt cx cy) (polar cx cy a1 r1) (polar cx cy a2 r2) (polar cx cy a3 r3) (1 / 3) in
  (12 * r1 - 6 * r2 - r3) / 27 <= cos a1 * (px b - cx) + sin a1 * (py b - cy).
Proof.
  intros H2 H3 b.
  assert (E : cos a1 * (px b - cx) + sin a1 * (py b - cy) =
              (12 * r1 * (cos a1 ^ 2 + sin a1 ^ 2) + 6 * r2 * (cos a1 * cos a2 + sin a1 * sin a2) +
               r3 * (cos a1 * cos a3 + sin a1 * sin a3)) / 27)
    by (unfold b, bezier_point, polar; simpl; field).
  rewrite E, cos2_sin2.
  pose proof (Rmult_le_pos r2 _ H2 (ltac:(pose proof (unit_dot_ge a1 a2); lra)
                                   : 0 <= cos a1 * cos a2 + sin a1 * sin a2 + 1)).
  pose proof (Rmult_le_pos r3 _ H3 (ltac:(pose proof (unit_dot_ge a1 a3); lra)
                                   : 0 <= cos a1 * cos a3 + sin a1 * sin a3 + 1)).
  lra.
Qed.


Theorem curve_leaves_canvas W H e :
  0 <= W -> 0 <= H -> 25 + 9 / 8 * (W + H) < e ->
  let cx := W / 2 in let cy := H / 2 in
  ~ on_canvas W H (bezier_point (Pt cx cy) (cp1 cx cy e 0) (cp2 cx cy e 0) (endp cx cy 0) (1 / 3)).
Proof.
  intros HW HH He cx cy [[X1 X2] [Y1 Y2]].
  unfold cp1, cp2, endp in *. simpl INR in *.
  set (b := bezier_point _ _ _ _ _) in *.
  pose proof (third_point_proj cx cy (0 * 20 + e + 0 * 50) (100 + 0 * 10 + e) (0 * 30 + e * 2)
                (200 + 0 * 40 + 0) (0 * 10) (300 + 0 * 10) ltac:(lra) ltac:(lra)) as P.
  fold b in P.
  pose proof (proj_le_abs (0 * 20 + e + 0 * 50) (px b - cx) (py b - cy)) as A.
  assert (Rabs (px b - cx) <= W / 2) by (apply Rabs_le; unfold cx in *; lra).
  assert (Rabs (py b - cy) <= H / 2) by (apply Rabs_le; unfold cy in *; lra).
  lra.
Qed.

Lemma curve_leaves_canvas_witness :
  0 <= 1920 /\ 0 <= 1080 /\ 25 + 9 / 8 * (1920 + 1080) < 3500 /\
  ~ on_canvas 1920 1080 (bezier_point (Pt (1920 / 2) (1080 / 2)) (cp1 (1920 / 2) (1080 / 2) 3500 0)
                           (cp2 (1920 / 2) (1080 / 2) 3500 0) (endp (1920 / 2) (1080 / 2) 0) (1 / 3)).
Proof.
  split; [lra|]. split; [lra|]. split; [lra|].
  apply (curve_leaves_canvas 1920 1080 3500); lra.
Defined.
