(* ===== verification/Gradient.v ===== *)
(** * The lookup tables: [getGradientData] (src/script.js:25-50) fills a
    1-by-[height] canvas with a radial gradient from [(0, 0, 0)] to
    [(0, height, height)], one stop per [colorStops] entry coloured by
    [getColor], and returns its pixels; [gradData] (line 45) and
    [gradMaskData] (line 49, opacity as gray).  Theorems: the table's shape
    and bytes, its errors (heights 0 or less too), the gray mask, the
    positions the rows sample. *)

From S2P Require Import Prelude Css Canvas.
From stdpp Require Import base list.
From Stdlib Require Import ZArith QArith Qround Qminmax Lia Psatz String.

#[local] Open Scope dope_scope.

Record ColorStop := MkStop { position : Q; color : string; opacity : Q }.

(** [colorStops] (lines 39-43). *)
Definition colorStops : list ColorStop :=
  [MkStop 0 "red" 0; MkStop (1 # 4) "orange" (1 # 2); MkStop (1 # 2) "white" 1].

(** The [getColor] callbacks of lines 45 and 49. *)
Definition color_of_stop (s : ColorStop) : css_color := CssNamed (color s).
Definition mask_of_stop (s : ColorStop) : css_color := CssHsl 0 0 (opacity s * 100).

(** The [forEach] of lines 31-33: the first throw aborts it. *)
Fixpoint add_stops `{Quantizer} (stops : list ColorStop) (getColor : ColorStop -> css_color)
    (g : radial_gradient) : dom_error + radial_gradient :=
  match stops with
  | [] => inr g
  | s :: rest => g' <- addColorStop (position s) (getColor s) g ;; add_stops rest getColor g'
  end.

(** The canvas is only filled: no stroke coverage plays a part. *)
Definition no_coverage : coverage := fun _ _ _ => false.

Definition getGradientData `{Quantizer} (has2d : bool) (height : Z) (stops : list ColorStop)
    (getColor : ColorStop -> css_color) : dom_error + image_data :=
  ctx <- makeCtx 1 height 1 has2d ;;
  g0 <- createRadialGradient 0 0 0 0 (inject_Z height) (inject_Z height) ;;
  g <- add_stops stops getColor g0 ;;
  let ctx := set_fillStyle (PRadial g) ctx in
  let ctx := fillRect 0 0 (inject_Z (cv_width ctx)) (inject_Z (cv_height ctx)) ctx in
  getImageData no_coverage 0 0 1 height ctx.

Definition gradData `{Quantizer} : dom_error + image_data :=
  getGradientData true 25 colorStops color_of_stop.
Definition gradMaskData `{Quantizer} : dom_error + image_data :=
  getGradientData true 25 colorStops mask_of_stop.

Definition opaque_ok (c : rgba8) : bool := rgba8_ok c && (a8 c =? 255)%Z.

Definition is_gray (c : rgba8) : bool := (r8 c =? g8 c)%Z && (g8 c =? b8 c)%Z.

Section Interpolation.
Context `{Quantizer}.

Lemma quantize_lerp_byte (a b : Z) t :
  (0 <= a <= 255)%Z -> (0 <= b <= 255)%Z -> (0 <= t <= 1)%Q ->
  is_byte (quantize (lerpQ (inject_Z a) (inject_Z b) t)) = true.
Proof.
  intros Ha Hb Ht. apply quantize_byte. apply lerpQ_bounds; [| |done];
    (split; [change 0%Q with (inject_Z 0) | change 255%Q with (inject_Z 255)];
     rewrite <- Zle_Qle; lia).
Qed.

Lemma quantize_lerp_same (a : Z) t : quantize (lerpQ (inject_Z a) (inject_Z a) t) = a.
Proof. apply quantize_eq. unfold lerpQ. ring. Qed.

Lemma mix8_opaque_ok c1 c2 t :
  opaque_ok c1 = true -> opaque_ok c2 = true -> (0 <= t <= 1)%Q -> opaque_ok (mix8 c1 c2 t) = true.
Proof.
  destruct c1 as [r1 g1 b1 a1], c2 as [r2 g2 b2 a2]. unfold opaque_ok, rgba8_ok, mix8; simpl.
  intros H1 H2 Ht. rewrite !andb_true_iff, !Z.eqb_eq in H1, H2.
  destruct H1 as [H1 ->], H2 as [H2 ->]. rewrite quantize_lerp_same, Z.eqb_refl, andb_true_r.
  rewrite !quantize_lerp_byte by (done || byte_lia). done.
Qed.

Lemma mix8_gray c1 c2 t : is_gray c1 = true -> is_gray c2 = true -> is_gray (mix8 c1 c2 t) = true.
Proof.
  destruct c1 as [r1 g1 b1 a1], c2 as [r2 g2 b2 a2]. unfold is_gray, mix8; simpl.
  rewrite !andb_true_iff, !Z.eqb_eq. intros [-> ->] [-> ->]. done.
Qed.

(** A property of the stops kept by [mix8] holds of the gradient. *)
Lemma gradient_color_inv (P : rgba8 -> bool) stops w :
  (forall c1 c2 t, P c1 = true -> P c2 = true -> (0 <= t <= 1)%Q -> P (mix8 c1 c2 t) = true) ->
  stops <> [] -> Forall (fun p => P (snd p) = true) stops -> P (gradient_color stops w) = true.
Proof.
  intros Hmix Hne Hall. destruct stops as [|[o c] rest]; [done|]. simpl.
  apply Forall_cons in Hall as [Hc Hrest]. clear Hne.
  destruct (Qlt_le_dec w o) as [_|Hw]; [done|].
  revert o c Hc Hw. induction rest as [|[o' c'] rest IH]; intros o c Hc Hw; simpl; [done|].
  apply Forall_cons in Hrest as [Hc' Hrest]. simpl in Hc, Hc'.
  destruct (Qlt_le_dec w o') as [Hlt|Hle].
  - apply Hmix; [done | done |]. simpl.
    split; [apply Qle_shift_div_l | apply Qle_shift_div_r]; lra.
  - by apply IH.
Qed.

Lemma insert_stop_Forall (P : rgba8 -> Prop) o c stops :
  P c -> Forall (fun p => P (snd p)) stops -> Forall (fun p => P (snd p)) (insert_stop o c stops).
Proof.
  intros Hc. induction 1 as [|[o' c'] rest Hp Hrest IH]; simpl; [by repeat constructor|].
  destruct (Qlt_le_dec o o'); repeat constructor; assumption.
Qed.

Lemma insert_stop_nonempty o c stops : insert_stop o c stops <> [].
Proof. destruct stops as [|[o' c'] rest]; simpl; [done|]. by destruct (Qlt_le_dec o o'). Qed.
End Interpolation.

Section Table.
Context `{Quantizer}.

Definition stop_ok (getColor : ColorStop -> css_color) (P : rgba8 -> bool) (s : ColorStop) : Prop :=
  (0 <= position s <= 1)%Q /\ exists c, resolve_color (getColor s) = Some c /\ P c = true.

Fixpoint stops_of (getColor : ColorStop -> css_color) (stops : list ColorStop)
    (acc : list (Q * rgba8)) : list (Q * rgba8) :=
  match stops with
  | [] => acc
  | s :: rest =>
      stops_of getColor rest
        (match resolve_color (getColor s) with
         | Some c => insert_stop (position s) c acc
         | None => acc
         end)
  end.

Lemma add_stops_ok getColor P stops x0 y0 r0 x1 y1 r1 st0 :
  Forall (stop_ok getColor P) stops -> Forall (fun p => P (snd p) = true) st0 ->
  add_stops stops getColor (RadialGradient x0 y0 r0 x1 y1 r1 st0) =
    inr (RadialGradient x0 y0 r0 x1 y1 r1 (stops_of getColor stops st0)) /\
  Forall (fun p => P (snd p) = true) (stops_of getColor stops st0) /\
  (stops <> [] -> stops_of getColor stops st0 <> []).
Proof.
  intros Hall. revert st0. induction Hall as [|s stops [Hpos [c [Hc HP]]] _ IH]; intros st0 Hst0.
  - done.
  - simpl. unfold addColorStop.
    destruct (Qlt_le_dec (position s) 0); [lra|]. destruct (Qlt_le_dec 1 (position s)); [lra|].
    rewrite Hc.
    destruct (IH (insert_stop (position s) c st0)) as (E & F & N).
    { by apply (insert_stop_Forall (fun c => P c = true)). }
    split; [done|]. split; [done|]. intros _.
    destruct stops as [|s' stops']; [|by apply N].
    apply insert_stop_nonempty.
Qed.

Lemma mix8_compat c1 c2 t t' : (t == t')%Q -> mix8 c1 c2 t = mix8 c1 c2 t'.
Proof. intros E. unfold mix8, lerpQ. by rewrite E. Qed.

Lemma gradient_color_compat stops w w' : (w == w')%Q -> gradient_color stops w = gradient_color stops w'.
Proof.
  intros E. destruct stops as [|[o c] rest]; [done|]. simpl.
  destruct (Qlt_le_dec w o), (Qlt_le_dec w' o); try (exfalso; lra); [done|].
  revert o c q q0. induction rest as [|[o' c'] rest IH]; intros o c Hw Hw'; simpl; [done|].
  destruct (Qlt_le_dec w o'), (Qlt_le_dec w' o'); try (exfalso; lra).
  - apply mix8_compat. simpl. by rewrite E.
  - by apply IH.
Qed.

(** The position of the circle [(0, w h, w h)] through the centre of row [j]. *)
Definition table_omega (h j : Z) : Q :=
  ((1 # 2) * (1 # 2) + (inject_Z j + (1 # 2)) * (inject_Z j + (1 # 2))) /
  (2 * ((inject_Z j + (1 # 2)) * inject_Z h)).

Definition script_gradient (h : Z) (st : list (Q * rgba8)) : radial_gradient :=
  RadialGradient 0 0 0 0 (inject_Z h) (inject_Z h) st.

Lemma radial_omega_script h j st :
  (0 < h)%Z -> (0 <= j)%Z ->
  exists w, radial_omega (script_gradient h st) ((inject_Z 0 + (1 # 2)) / inject_Z 1)
                         ((inject_Z j + (1 # 2)) / inject_Z 1) = Some w /\ (w == table_omega h j)%Q.
Proof.
  intros Hh Hj. unfold radial_omega, script_gradient; simpl rg_x0; simpl rg_x1; simpl rg_y0;
    simpl rg_y1; simpl rg_r0; simpl rg_r1.
  assert (Hh' : (0 < inject_Z h)%Q) by qz.
  assert (Hj' : (0 <= inject_Z j)%Q) by qz.
  set (y := (inject_Z j + (1 # 2)) / inject_Z 1).
  assert (Ey : (y == inject_Z j + (1 # 2))%Q) by (unfold y; field).
  set (x := (inject_Z 0 + (1 # 2)) / inject_Z 1).
  assert (Ex : (x == 1 # 2)%Q) by (unfold x; reflexivity).
  replace (Qeq_bool _ 0) with true by (symmetry; apply Qeq_bool_iff; ring). simpl negb. cbv iota.
  destruct (Qeq_bool _ 0) eqn:Eb.
  { apply Qeq_bool_iff in Eb. rewrite Ex, Ey in Eb. exfalso. nra. }
  set (w := _ / _).
  assert (Ew : (w == table_omega h j)%Q).
  { unfold w, table_omega. rewrite Ex, Ey. field. split; [lra | nra]. }
  assert (Hw : (0 <= w)%Q).
  { rewrite Ew. unfold table_omega. apply Qle_shift_div_l; nra. }
  destruct (Qle_bool 0 _) eqn:Er.
  - by exists w.
  - exfalso. apply Bool.not_true_iff_false in Er. apply Er, Qle_bool_iff. nra.
Qed.
End Table.

Section Rows.
Context `{Quantizer}.

Lemma fill_row_pixel h j st :
  (0 < h)%Z -> (0 <= j < h)%Z -> st <> [] -> Forall (fun p => opaque_ok (snd p) = true) st ->
  canvas_px no_coverage
    (fillRect 0 0 (inject_Z (1 * 1)) (inject_Z (h * 1))
       (set_fillStyle (PRadial (script_gradient h st))
          (Context2D (1 * 1) (h * 1) 1 black8 (PColor black8) 1 JoinMiter CapButt [] []))) 0 j =
  gradient_color st (table_omega h j).
Proof.
  intros Hh Hj Hne Hst. unfold canvas_px. simpl cv_width; simpl cv_height.
  replace ((0 <=? 0)%Z && (0 <? 1 * 1)%Z && (0 <=? j)%Z && (j <? h * 1)%Z) with true
    by (symmetry; rewrite !andb_true_iff, Z.leb_le, !Z.ltb_lt, Z.leb_le; lia).
  unfold raster_px. simpl.
  assert (Hh' : (1 <= inject_Z h)%Q) by qz.
  assert (Hj0 : (0 <= inject_Z j)%Q) by qz.
  assert (Hj1 : (inject_Z (j + 1) <= inject_Z h)%Q) by qz.
  rewrite inject_Z_plus in Hj1. change (inject_Z 1) with 1%Q in Hj1.
  rewrite !Z.mul_1_r.
  rewrite (proj2 (center_in_pos (inject_Z 1 * 0) (inject_Z 1 * 0) (inject_Z 1 * inject_Z 1)
                                (inject_Z 1 * inject_Z h) 0 j
                                ltac:(change (inject_Z 1) with 1%Q; lra)
                                ltac:(change (inject_Z 1) with 1%Q; lra))).
  2: { change (inject_Z 1) with 1%Q. change (inject_Z 0) with 0%Q. split; lra. }
  simpl paint_color. destruct (radial_omega_script h j st) as (w & Ew & Hw); [lia..|].
  rewrite Ew, source_over8_transparent.
  - pose proof (gradient_color_inv opaque_ok st w mix8_opaque_ok Hne Hst) as Hop.
    unfold opaque_ok in Hop. apply andb_true_iff in Hop as [_ Ha]. apply Z.eqb_eq in Ha.
    rewrite Ha. simpl. by apply gradient_color_compat.
  - pose proof (gradient_color_inv opaque_ok st w mix8_opaque_ok Hne Hst) as Hop.
    unfold opaque_ok in Hop. by apply andb_true_iff in Hop as [? _].
Qed.
End Rows.

Section Whole.
Context `{Quantizer}.

Lemma concat_column {B} (f : Z -> Z -> B) l :
  List.concat (map (fun j => map (fun i => f i j) [0%Z]) l) = map (f 0%Z) l.
Proof. induction l as [|a l IH]; simpl in *; [done|]. by rewrite IH. Qed.

(** Row [j] of the table is the gradient at [table_omega h j]. *)
Lemma getGradientData_rows getColor P stops h :
  (0 < h)%Z -> stops <> [] -> Forall (stop_ok getColor (fun c => opaque_ok c && P c)) stops ->
  let st := stops_of getColor stops [] in
  Forall (fun p => (opaque_ok (snd p) && P (snd p)) = true) st /\ st <> [] /\
  getGradientData true h stops getColor =
    inr (ImageData 1 h (flatten_rgba (map (fun j => gradient_color st (table_omega h j)) (seqZ 0 h)))).
Proof.
  intros Hh Hne Hall st. unfold getGradientData, makeCtx, createRadialGradient. simpl negb. cbv iota.
  destruct (Qlt_le_dec 0 0) as [Hc|_]; [exfalso; lra|].
  destruct (Qlt_le_dec (inject_Z h) 0) as [Hc|_].
  { exfalso. revert Hc. qz. }
  destruct (add_stops_ok getColor _ stops 0 0 0 0 (inject_Z h) (inject_Z h) [] Hall (List.Forall_nil _))
    as (E & F & N).
  rewrite E. split; [done|]. split; [by apply N|].
  unfold getImageData. replace ((1 =? 0)%Z || (h =? 0)%Z) with false by (symmetry; apply orb_false_iff; lia).
  rewrite (Z.abs_eq h), (Z.min_l 0 (0 + 1)), (Z.min_l 0 (0 + h)) by lia. change (Z.abs 1) with 1%Z.
  change (seqZ 0 1) with [0%Z]. rewrite concat_column. do 3 f_equal.
  apply map_ext_in. intros j Hj. apply list_elem_of_In, elem_of_seqZ in Hj.
  apply fill_row_pixel; [lia | lia | by apply N |].
  eapply Forall_impl; [exact F|]. intros p Hp. simpl in Hp. by apply andb_true_iff in Hp as [? _].
Qed.
End Whole.

Lemma clamp01_bounds q : (0 <= clamp01 q <= 1)%Q.
Proof.
  unfold clamp01. split.
  - apply Q.le_max_l.
  - apply Q.max_lub; [lra | apply Q.le_min_l].
Qed.

Lemma hue_to_rgb_const t1 t2 t h : (t1 == t)%Q -> (t2 == t)%Q -> (hue_to_rgb t1 t2 h == t)%Q.
Proof.
  intros E1 E2. unfold hue_to_rgb. cbv zeta.
  destruct (Qlt_le_dec _ 60); [rewrite E1, E2; unfold Qdiv; ring|].
  destruct (Qlt_le_dec _ 180); [exact E2|].
  destruct (Qlt_le_dec _ 240); [rewrite E1, E2; unfold Qdiv; ring | exact E1].
Qed.

Section MaskColours.
Context `{Quantizer}.

(** [hsl(0deg, 0%, L%)] is the opaque gray of lightness [L]. *)
Lemma resolve_hsl_gray h l :
  resolve_color (CssHsl h 0 l) =
  Some (let v := quantize (255 * clamp01 (l / 100)) in RGBA8 v v v 255).
Proof.
  unfold resolve_color, hsl_to_rgb. simpl.
  set (L := clamp01 (l / 100)).
  assert (Es : (clamp01 (0 / 100) == 0)%Q) by reflexivity.
  assert (E2 : ((if Qle_bool L (1 # 2) then L * (clamp01 (0 / 100) + 1)
                 else L + clamp01 (0 / 100) - L * clamp01 (0 / 100)) == L)%Q)
    by (destruct (Qle_bool L (1 # 2)); rewrite Es; ring).
  assert (E1 : (L * 2 - (if Qle_bool L (1 # 2) then L * (clamp01 (0 / 100) + 1)
                         else L + clamp01 (0 / 100) - L * clamp01 (0 / 100)) == L)%Q)
    by (rewrite E2; ring).
  do 2 f_equal; apply quantize_proper; rewrite hue_to_rgb_const by eassumption; reflexivity.
Qed.

Lemma mask_stop_ok s :
  (0 <= position s <= 1)%Q -> stop_ok mask_of_stop (fun c => opaque_ok c && is_gray c) s.
Proof.
  intros Hp. split; [done|]. unfold mask_of_stop. rewrite resolve_hsl_gray. eexists; split; [done|].
  pose proof (clamp01_bounds (opacity s * 100 / 100)) as Hb.
  assert (Hv : is_byte (quantize (255 * clamp01 (opacity s * 100 / 100))) = true)
    by (apply quantize_byte; lra).
  unfold opaque_ok, rgba8_ok, is_gray. simpl. rewrite Hv, !Z.eqb_refl. done.
Qed.

Lemma color_stops_ok : Forall (stop_ok color_of_stop opaque_ok) colorStops.
Proof.
  repeat constructor; simpl; try lra; eexists; split; reflexivity.
Qed.
End MaskColours.

Lemma Qdiv_lt_cross a b c d : (0 < b)%Q -> (0 < d)%Q -> (a * d < c * b)%Q -> (a / b < c / d)%Q.
Proof.
  intros Hb Hd Hx. apply Qlt_shift_div_r; [done|].
  assert (E : (c / d * b == (c * b) / d)%Q) by (field; lra).
  rewrite E. apply Qlt_shift_div_l; [done | lra].
Qed.

Lemma table_omega_range h j :
  (2 <= h)%Z -> (0 <= j < h)%Z -> (0 < table_omega h j < 1 # 2)%Q.
Proof.
  intros Hh Hj. unfold table_omega.
  assert (H2 : (2 <= inject_Z h)%Q) by qz.
  assert (Hj0 : (0 <= inject_Z j)%Q) by qz.
  assert (Hj1 : (inject_Z (j + 1) <= inject_Z h)%Q) by qz.
  rewrite inject_Z_plus in Hj1. change (inject_Z 1) with 1%Q in Hj1.
  split.
  - apply Qlt_shift_div_l; nra.
  - apply Qlt_shift_div_r; nra.
Qed.

Lemma table_omega_increasing h j :
  (1 <= h)%Z -> (0 <= j)%Z -> (table_omega h j < table_omega h (j + 1))%Q.
Proof.
  intros Hh Hj. unfold table_omega. rewrite inject_Z_plus. change (inject_Z 1) with 1%Q.
  assert (H1 : (1 <= inject_Z h)%Q) by qz.
  assert (Hj0 : (0 <= inject_Z j)%Q) by qz.
  apply Qdiv_lt_cross; nra.
Qed.

Lemma rows_lookup (F : Z -> rgba8) h j k :
  (0 <= j < h)%Z -> (k < 4)%nat ->
  flatten_rgba (map F (seqZ 0 h)) !! (4 * Z.to_nat j + k)%nat = Some (channel k (F j)).
Proof.
  intros Hj Hk. rewrite lookup_flatten_rgba, lookup_map, lookup_seqZ_lt by lia.
  simpl. by rewrite Z2Nat.id by lia.
Qed.

Lemma length_rows (F : Z -> rgba8) h : List.length (flatten_rgba (map F (seqZ 0 h))) = (4 * Z.to_nat h)%nat.
Proof. by rewrite length_flatten_rgba, length_map, length_seqZ. Qed.

Lemma rows_bytes (F : Z -> rgba8) h :
  (forall j, opaque_ok (F j) = true) -> Forall (fun z => is_byte z = true) (flatten_rgba (map F (seqZ 0 h))).
Proof.
  intros Hop. apply Forall_flatten_rgba, Forall_forall. intros c Hc.
  apply list_elem_of_In, in_map_iff in Hc as (j & <- & _).
  specialize (Hop j). unfold opaque_ok, rgba8_ok in Hop. byte_lia.
Qed.

Lemma stop_ok_and_true `{Quantizer} getColor stops :
  Forall (stop_ok getColor opaque_ok) stops ->
  Forall (stop_ok getColor (fun c => opaque_ok c && (fun _ => true) c)) stops.
Proof.
  intros Hall. eapply Forall_impl; [exact Hall|]. intros s (Hp & c & Hc & Ho).
  split; [done|]. exists c. by rewrite Ho.
Qed.

(** The first rejected stop decides the exception of the stop loop. *)
Lemma add_stops_error `{Quantizer} getColor pre s post g :
  Forall (stop_ok getColor (fun _ => true)) pre ->
  ((position s < 0 \/ 1 < position s)%Q -> add_stops (pre ++ s :: post) getColor g = inl IndexSizeError) /\
  ((0 <= position s <= 1)%Q -> resolve_color (getColor s) = None ->
   add_stops (pre ++ s :: post) getColor g = inl SyntaxError).
Proof.
  intros Hpre. revert g. induction Hpre as [|s' pre (Hp & c & Hc & _) _ IH]; intros g; simpl.
  - unfold addColorStop. split.
    + intros Hlt. destruct (Qlt_le_dec (position s) 0); [done|].
      destruct (Qlt_le_dec 1 (position s)); [done | exfalso; lra].
    + intros Hp Hc. destruct (Qlt_le_dec (position s) 0); [exfalso; lra|].
      destruct (Qlt_le_dec 1 (position s)); [exfalso; lra|]. by rewrite Hc.
  - unfold addColorStop. destruct (Qlt_le_dec (position s') 0); [exfalso; lra|].
    destruct (Qlt_le_dec 1 (position s')); [exfalso; lra|]. rewrite Hc. apply IH.
Qed.

Section Claims.
Context `{Quantizer}.

(** C13 (getGradientData_table): with a 2D context, a positive height and
    accepted stops, [getGradientData] returns a 1-by-[height] ImageData of
    [4 * height] bytes, every pixel opaque. *)
Theorem getGradientData_table getColor stops h :
  (0 < h)%Z -> stops <> [] -> Forall (stop_ok getColor opaque_ok) stops ->
  exists d, getGradientData true h stops getColor = inr d /\ id_width d = 1%Z /\ id_height d = h /\
    List.length (id_data d) = (4 * Z.to_nat h)%nat /\ Forall (fun z => is_byte z = true) (id_data d) /\
    forall j, (0 <= j < h)%Z -> id_data d !! (4 * Z.to_nat j + 3)%nat = Some 255%Z.
Proof.
  intros Hh Hne Hall.
  destruct (getGradientData_rows getColor (fun _ => true) stops h Hh Hne (stop_ok_and_true _ _ Hall))
    as (F & Hst & ->).
  set (st := stops_of getColor stops []) in *.
  assert (Hop : forall w, opaque_ok (gradient_color st w) = true).
  { intros w. apply (gradient_color_inv opaque_ok); [apply mix8_opaque_ok | done |].
    eapply Forall_impl; [exact F|]. intros p Hp. cbv beta in Hp. by rewrite andb_true_r in Hp. }
  eexists; split; [reflexivity|]. cbn [id_data id_width id_height].
  split; [done|]. split; [done|]. split; [apply length_rows|]. split.
  - apply rows_bytes. intros j. apply Hop.
  - intros j Hj. rewrite rows_lookup by (done || lia). simpl.
    specialize (Hop (table_omega h j)). unfold opaque_ok in Hop.
    apply andb_true_iff in Hop as [_ Ha]. by apply Z.eqb_eq in Ha as ->.
Qed.

(** C16 (getGradientData_errors): [getGradientData] throws
    [SurfaceUnavailable] without a 2D context; with one, the first rejected
    stop throws [IndexSizeError] (offset outside [0, 1]) or [SyntaxError]
    (colour that does not parse). *)
Theorem getGradientData_errors getColor pre s post h :
  getGradientData false h (pre ++ s :: post) getColor = inl SurfaceUnavailable /\
  ((0 <= h)%Z -> Forall (stop_ok getColor (fun _ => true)) pre ->
   ((position s < 0 \/ 1 < position s)%Q ->
    getGradientData true h (pre ++ s :: post) getColor = inl IndexSizeError) /\
   ((0 <= position s <= 1)%Q -> resolve_color (getColor s) = None ->
    getGradientData true h (pre ++ s :: post) getColor = inl SyntaxError)).
Proof.
  split; [reflexivity|]. intros Hh Hpre.
  unfold getGradientData, makeCtx, createRadialGradient. simpl negb. cbv iota.
  destruct (Qlt_le_dec 0 0) as [Hc|_]; [exfalso; lra|].
  destruct (Qlt_le_dec (inject_Z h) 0) as [Hc|_].
  { exfalso. revert Hc. qz. }
  destruct (add_stops_error getColor pre s post (RadialGradient 0 0 0 0 (inject_Z h) (inject_Z h) []) Hpre)
    as [E1 E2].
  split; [intros Hp; by rewrite E1 | intros Hp Hc; by rewrite E2].
Qed.

(** C17 (getGradientData_nonpositive_height): a table of height 0 or less is
    never built: a negative height makes [createRadialGradient] throw
    [IndexSizeError] (negative radius), and a zero height, once the stops
    are accepted, makes [getImageData(0, 0, 1, 0)] throw [IndexSizeError]. *)
Theorem getGradientData_nonpositive_height getColor stops h :
  ((h < 0)%Z -> getGradientData true h stops getColor = inl IndexSizeError) /\
  (h = 0%Z -> Forall (stop_ok getColor (fun _ => true)) stops ->
   getGradientData true h stops getColor = inl IndexSizeError).
Proof.
  unfold getGradientData, makeCtx, createRadialGradient. simpl negb. cbv iota.
  destruct (Qlt_le_dec 0 0) as [Hc|_]; [exfalso; lra|]. split.
  - intros Hh. destruct (Qlt_le_dec (inject_Z h) 0) as [_|Hc]; [done|]. exfalso. revert Hc. qz.
  - intros -> Hall. destruct (Qlt_le_dec (inject_Z 0) 0) as [Hc|_]; [exfalso; revert Hc; qz|].
    destruct (add_stops_ok getColor _ stops 0 0 0 0 (inject_Z 0) (inject_Z 0) [] Hall (List.Forall_nil _))
      as (-> & _ & _).
    reflexivity.
Qed.

(** C14 (getGradientData_samples): row [j] of the table is the gradient at
    [table_omega h j]; for two rows or more these positions increase and stay
    inside [(0, 1/2)], so no row reaches a stop at offset 1/2 or beyond. *)
Theorem getGradientData_samples getColor stops h :
  (2 <= h)%Z -> stops <> [] -> Forall (stop_ok getColor opaque_ok) stops ->
  let st := stops_of getColor stops [] in
  getGradientData true h stops getColor =
    inr (ImageData 1 h (flatten_rgba (map (fun j => gradient_color st (table_omega h j)) (seqZ 0 h)))) /\
  forall j, (0 <= j < h)%Z ->
    (0 < table_omega h j < 1 # 2)%Q /\ ((j + 1 < h)%Z -> (table_omega h j < table_omega h (j + 1))%Q).
Proof.
  intros Hh Hne Hall st.
  destruct (getGradientData_rows getColor (fun _ => true) stops h ltac:(lia) Hne (stop_ok_and_true _ _ Hall))
    as (_ & _ & E).
  split; [exact E|]. intros j Hj. split.
  - by apply table_omega_range.
  - intros _. apply table_omega_increasing; lia.
Qed.
(** C23 (getGradientData_mask_gray): every row of the mask table built from
    [hsl(0deg, 0%, L%)] stops has equal red, green and blue bytes. *)
Theorem getGradientData_mask_gray stops h :
  (0 < h)%Z -> stops <> [] -> Forall (fun s => 0 <= position s <= 1)%Q stops ->
  exists d, getGradientData true h stops mask_of_stop = inr d /\
    forall j, (0 <= j < h)%Z -> exists v,
      id_data d !! (4 * Z.to_nat j + 0)%nat = Some v /\ id_data d !! (4 * Z.to_nat j + 1)%nat = Some v /\
      id_data d !! (4 * Z.to_nat j + 2)%nat = Some v.
Proof.
  intros Hh Hne Hpos.
  assert (Hall : Forall (stop_ok mask_of_stop (fun c => opaque_ok c && is_gray c)) stops).
  { eapply Forall_impl; [exact Hpos|]. apply mask_stop_ok. }
  destruct (getGradientData_rows mask_of_stop is_gray stops h Hh Hne Hall) as (F & Hst & ->).
  eexists; split; [reflexivity|]. intros j Hj. cbn [id_data].
  rewrite !rows_lookup by (done || lia).
  assert (Hmix : forall c1 c2 t, (opaque_ok c1 && is_gray c1) = true ->
            (opaque_ok c2 && is_gray c2) = true -> (0 <= t <= 1)%Q ->
            (opaque_ok (mix8 c1 c2 t) && is_gray (mix8 c1 c2 t)) = true).
  { intros c1 c2 t H1 H2 Ht. apply andb_true_iff in H1 as [O1 G1], H2 as [O2 G2].
    by rewrite mix8_opaque_ok, mix8_gray. }
  pose proof (gradient_color_inv _ (stops_of mask_of_stop stops []) (table_omega h j) Hmix Hst F) as G.
  apply andb_true_iff in G as [_ Hg].
  destruct (gradient_color _ _) as [r g b a]. unfold is_gray in Hg. simpl in Hg |- *.
  exists r.
  apply andb_true_iff in Hg as [E1 E2]. apply Z.eqb_eq in E1, E2. subst. done.
Qed.
End Claims.

(** ** Witnesses: the script's own tables *)

Lemma getGradientData_table_witness :
  (0 < 25)%Z /\ colorStops <> [] /\ Forall (stop_ok color_of_stop opaque_ok) colorStops /\
  exists d, getGradientData true 25 colorStops color_of_stop = inr d /\ id_width d = 1%Z /\
    id_height d = 25%Z /\ List.length (id_data d) = (4 * Z.to_nat 25)%nat /\
    Forall (fun z => is_byte z = true) (id_data d) /\
    forall j, (0 <= j < 25)%Z -> id_data d !! (4 * Z.to_nat j + 3)%nat = Some 255%Z.
Proof.
  split; [lia|]. split; [discriminate|]. split; [apply color_stops_ok|].
  apply getGradientData_table; [lia | discriminate | apply color_stops_ok].
Defined.

Lemma getGradientData_errors_witness :
  getGradientData false 25 ([] ++ MkStop 2 "red" 0 :: []) color_of_stop = inl SurfaceUnavailable /\
  getGradientData true 25 ([] ++ MkStop 2 "red" 0 :: []) color_of_stop = inl IndexSizeError.
Proof.
  destruct (getGradientData_errors color_of_stop [] (MkStop 2 "red" 0) [] 25) as [E1 E2].
  split; [exact E1|]. apply E2; [lia | constructor | simpl; right; reflexivity].
Defined.

Lemma getGradientData_samples_witness :
  (0 < table_omega 25 24 < 1 # 2)%Q /\ (table_omega 25 24 < 1 # 2)%Q.
Proof.
  assert (H := getGradientData_samples color_of_stop colorStops 25 ltac:(lia) ltac:(discriminate)
                 color_stops_ok).
  destruct H as [_ H]. destruct (H 24%Z ltac:(lia)) as [R _]. split; [exact R | apply R].
Defined.

Lemma getGradientData_mask_gray_witness :
  (0 < 25)%Z /\ colorStops <> [] /\
  exists d, getGradientData true 25 colorStops mask_of_stop = inr d /\
    forall j, (0 <= j < 25)%Z -> exists v,
      id_data d !! (4 * Z.to_nat j + 0)%nat = Some v /\ id_data d !! (4 * Z.to_nat j + 1)%nat = Some v /\
      id_data d !! (4 * Z.to_nat j + 2)%nat = Some v.
Proof.
  split; [lia|]. split; [discriminate|].
  apply getGradientData_mask_gray; [lia | discriminate |].
  repeat constructor; simpl; lra.
Defined.

Lemma getGradientData_nonpositive_height_witness :
  getGradientData true (-1) colorStops color_of_stop = inl IndexSizeError /\
  (0 = 0)%Z /\ Forall (stop_ok color_of_stop (fun _ => true)) colorStops /\
  getGradientData true 0 colorStops color_of_stop = inl IndexSizeError.
Proof.
  assert (Hall : Forall (stop_ok color_of_stop (fun _ => true)) colorStops)
    by (repeat constructor; simpl; try lra; eexists; split; reflexivity).
  destruct (getGradientData_nonpositive_height color_of_stop colorStops (-1)) as [E _].
  destruct (getGradientData_nonpositive_height color_of_stop colorStops 0) as [_ E0].
  split; [apply E; lia|]. split; [reflexivity|]. split; [exact Hall|]. exact (E0 eq_refl Hall).
Defined.
