(* ===== verification/Monotone.v ===== *)
(** * The tables grow along their rows: stop channels grow with the
    offset, row positions grow with the row ([table_omega_increasing]),
    interpolation and rounding are monotone. *)

From S2P Require Import Prelude Css Canvas Gradient.
From stdpp Require Import base list.
From Stdlib Require Import ZArith QArith Qround Lia Psatz Sorted.

Definition px_channel (d : image_data) (j : Z) (k : nat) : Z :=
  default 0%Z (id_data d !! (4 * Z.to_nat j + k)%nat).

Lemma lerpQ_ge a b t : (a <= b)%Q -> (0 <= t)%Q -> (a <= lerpQ a b t)%Q.
Proof. unfold lerpQ. intros. nra. Qed.

Lemma lerpQ_le a b t : (a <= b)%Q -> (t <= 1)%Q -> (lerpQ a b t <= b)%Q.
Proof. unfold lerpQ. intros. nra. Qed.

Lemma lerpQ_mono a b t1 t2 : (a <= b)%Q -> (t1 <= t2)%Q -> (lerpQ a b t1 <= lerpQ a b t2)%Q.
Proof. unfold lerpQ. intros. nra. Qed.

Lemma ratio_bounds a w o : (a <= w)%Q -> (w < o)%Q -> (0 <= (w - a) / (o - a) <= 1)%Q.
Proof.
  intros H1 H2. split; [apply Qle_shift_div_l | apply Qle_shift_div_r]; lra.
Qed.

Lemma ratio_mono a w1 w2 o : (a <= w1)%Q -> (w1 <= w2)%Q -> (w2 < o)%Q ->
  ((w1 - a) / (o - a) <= (w2 - a) / (o - a))%Q.
Proof.
  intros H1 H2 H3. unfold Qdiv. apply Qmult_le_compat_r; [lra|].
  apply Qinv_le_0_compat. lra.
Qed.

Section Monotone.
Context `{Quantizer}.
Variable k : nat.
Hypothesis Hk : (k < 4)%nat.

Definition stop_le (p q : Q * rgba8) : Prop :=
  (fst p <= fst q)%Q /\ (channel k (snd p) <= channel k (snd q))%Z.

Lemma channel_mix8 c1 c2 t :
  channel k (mix8 c1 c2 t) = quantize (lerpQ (inject_Z (channel k c1)) (inject_Z (channel k c2)) t).
Proof. destruct k as [|[|[|[|k']]]]; [reflexivity.. | lia]. Qed.

Lemma channel_mix8_between c1 c2 t :
  (channel k c1 <= channel k c2)%Z -> (0 <= t <= 1)%Q ->
  (channel k c1 <= channel k (mix8 c1 c2 t) <= channel k c2)%Z.
Proof.
  intros Hc Ht. rewrite channel_mix8. apply quantize_bounds.
  assert (Hq : (inject_Z (channel k c1) <= inject_Z (channel k c2))%Q) by (rewrite <- Zle_Qle; lia).
  split; [apply lerpQ_ge | apply lerpQ_le]; lra.
Qed.

Lemma color_after_lower prev rest w :
  Sorted stop_le (prev :: rest) -> (fst prev <= w)%Q ->
  (channel k (snd prev) <= channel k (color_after prev rest w))%Z.
Proof.
  revert prev. induction rest as [|[o c] rest IH]; intros prev Hs Hw; simpl; [lia|].
  apply Sorted_inv in Hs as [Hs Hhd]. apply HdRel_inv in Hhd as [Ho Hc]. simpl in Ho, Hc.
  destruct (Qlt_le_dec w o) as [Hlt|Hge].
  - apply channel_mix8_between; [done | by apply ratio_bounds].
  - specialize (IH (o, c) Hs Hge). simpl in IH. lia.
Qed.

Lemma color_after_mono prev rest w1 w2 :
  Sorted stop_le (prev :: rest) -> (fst prev <= w1)%Q -> (w1 <= w2)%Q ->
  (channel k (color_after prev rest w1) <= channel k (color_after prev rest w2))%Z.
Proof.
  revert prev. induction rest as [|[o c] rest IH]; intros prev Hs Hw1 H12; simpl; [lia|].
  pose proof (color_after_lower (o, c) rest w2) as Low.
  apply Sorted_inv in Hs as [Hs Hhd]. apply HdRel_inv in Hhd as [Ho Hc]. simpl in Ho, Hc.
  destruct (Qlt_le_dec w1 o) as [L1|G1], (Qlt_le_dec w2 o) as [L2|G2].
  - rewrite !channel_mix8. apply quantize_mono, lerpQ_mono; [rewrite <- Zle_Qle; lia|].
    by apply ratio_mono.
  - specialize (Low Hs G2). simpl in Low.
    pose proof (channel_mix8_between (snd prev) c ((w1 - fst prev) / (o - fst prev)) Hc
                  (ratio_bounds _ _ _ Hw1 L1)). lia.
  - exfalso. lra.
  - apply (IH (o, c)); [done | done | done].
Qed.

Lemma gradient_color_mono st w1 w2 :
  Sorted stop_le st -> (w1 <= w2)%Q ->
  (channel k (gradient_color st w1) <= channel k (gradient_color st w2))%Z.
Proof.
  intros Hs H12. destruct st as [|[o c] rest]; simpl; [lia|].
  destruct (Qlt_le_dec w1 o) as [L1|G1], (Qlt_le_dec w2 o) as [L2|G2].
  - lia.
  - exact (color_after_lower (o, c) rest w2 Hs G2).
  - exfalso. lra.
  - exact (color_after_mono (o, c) rest w1 w2 Hs G1 H12).
Qed.
End Monotone.

Lemma table_omega_mono h j j' :
  (1 <= h)%Z -> (0 <= j <= j')%Z -> (table_omega h j <= table_omega h j')%Q.
Proof.
  intros Hh Hj. remember (Z.to_nat (j' - j)) as n eqn:En. revert j' Hj En.
  induction n as [|n IH]; intros j' Hj En.
  - replace j' with j by lia. lra.
  - pose proof (IH (j' - 1)%Z ltac:(lia) ltac:(lia)).
    pose proof (table_omega_increasing h (j' - 1) Hh ltac:(lia)) as Inc.
    replace (j' - 1 + 1)%Z with j' in Inc by lia. lra.
Qed.

Section Tables.
Context `{Quantizer}.

Lemma color_stops_val :
  stops_of color_of_stop colorStops [] =
  [(0, RGBA8 255 0 0 255); (1 # 4, RGBA8 255 165 0 255); (1 # 2, RGBA8 255 255 255 255)]%Q.
Proof. reflexivity. Qed.

Lemma mask_stops_val :
  stops_of mask_of_stop colorStops [] =
  map (fun s => (position s, let v := quantize (255 * clamp01 (opacity s * 100 / 100)) in RGBA8 v v v 255))
      colorStops.
Proof.
  cbn [stops_of colorStops]. unfold mask_of_stop. cbn [opacity position].
  rewrite !resolve_hsl_gray. reflexivity.
Qed.

Lemma color_stops_sorted k : (k < 4)%nat -> Sorted (stop_le k) (stops_of color_of_stop colorStops []).
Proof.
  intros Hk. rewrite color_stops_val. unfold stop_le.
  destruct k as [|[|[|[|k]]]]; try lia; repeat constructor; cbn; (lra || lia).
Qed.

Lemma mask_stops_sorted k : (k < 4)%nat -> Sorted (stop_le k) (stops_of mask_of_stop colorStops []).
Proof.
  intros Hk. rewrite mask_stops_val. unfold stop_le. cbn [map colorStops position opacity].
  assert (M1 : (quantize (255 * clamp01 (0 * 100 / 100)) <= quantize (255 * clamp01 ((1 # 2) * 100 / 100)))%Z)
    by (apply quantize_mono, Qle_bool_imp_le; reflexivity).
  assert (M2 : (quantize (255 * clamp01 ((1 # 2) * 100 / 100)) <= quantize (255 * clamp01 (1 * 100 / 100)))%Z)
    by (apply quantize_mono, Qle_bool_imp_le; reflexivity).
  destruct k as [|[|[|[|k]]]]; try lia; repeat constructor; cbn; (lra || lia).
Qed.

(** C22 (tables_monotone): every channel of both tables is nondecreasing
    along the rows: outer, wider bands are whiter and more opaque. *)
Theorem tables_monotone :
  exists gd gm, gradData = inr gd /\ gradMaskData = inr gm /\
  forall j j' k, (0 <= j)%Z -> (j <= j' < 25)%Z -> (k < 4)%nat ->
    (px_channel gd j k <= px_channel gd j' k)%Z /\ (px_channel gm j k <= px_channel gm j' k)%Z.
Proof.
  destruct (getGradientData_rows color_of_stop (fun _ => true) colorStops 25 ltac:(lia) ltac:(discriminate)
              (stop_ok_and_true _ _ color_stops_ok)) as (_ & _ & E1).
  destruct (getGradientData_rows mask_of_stop is_gray colorStops 25 ltac:(lia) ltac:(discriminate))
    as (_ & _ & E2).
  { repeat constructor; apply mask_stop_ok; simpl; lra. }
  eexists _, _. split; [exact E1|]. split; [exact E2|].
  intros j j' k Hj0 Hj Hk. unfold px_channel. cbn [id_data]. rewrite !rows_lookup by lia. cbn [default].
  pose proof (table_omega_mono 25 j j' ltac:(lia) ltac:(lia)).
  split; apply gradient_color_mono; auto using color_stops_sorted, mask_stops_sorted.
Qed.
End Tables.

Lemma tables_monotone_witness :
  match gradData, gradMaskData with
  | inr gd, inr gm =>
      (px_channel gd 1 1 <= px_channel gd 24 1)%Z /\ (px_channel gm 1 0 <= px_channel gm 24 0)%Z
  | _, _ => False
  end.
Proof.
  destruct tables_monotone as (gd & gm & E1 & E2 & M). rewrite E1, E2.
  split; [apply (M 1%Z 24%Z 1%nat) | apply (M 1%Z 24%Z 0%nat)]; lia.
Defined.
