(* ===== verification/Compositor.v ===== *)
(** * The compositor (src/script.js:1-4, 52-109): the drawing buffer
    ([regl_surface]), the textures, the full-screen quad of [drawLine] with
    its shaders ([uv = 0.5 * (1 - position)]; RGB of the colour texture,
    red of the mask as alpha), regl's defaults (nearest, clamp, depth
    [less]) and the blend [src alpha, one minus src alpha].  The
    framebuffer is a colour and a depth per pixel, rows from the bottom.
    Theorems: the buffer size, the mirrored sampling, the blend's bounds
    and its loss of opacity. *)

From S2P Require Import Prelude Css Canvas.
From stdpp Require Import base list.
From Stdlib Require Import ZArith QArith Qround Qminmax Lia Psatz.

(** [pixelRatio: Math.min(2, window.devicePixelRatio)] (line 3). *)
Definition pixelRatio (devicePixelRatio : Q) : Q := Qmin 2 devicePixelRatio.

(** Lines 1-4: the viewport times the ratio, truncated. *)
Definition regl_surface (innerWidth innerHeight : Z) (devicePixelRatio : Q) : Z * Z :=
  (Qfloor (inject_Z innerWidth * pixelRatio devicePixelRatio),
   Qfloor (inject_Z innerHeight * pixelRatio devicePixelRatio)).

(** A texture: its size and the display list it was uploaded from. *)
Record texture := Texture { tex_w : Z; tex_h : Z; tex_src : list draw_op }.

(** [regl.texture(ctx)] (lines 169-170). *)
Definition texture_of (c : context2d) : texture := Texture (cv_width c) (cv_height c) (display c).

Inductive gl_error := InvalidValue.

(** [tex.subimage(ctx)] (lines 189-190). *)
Definition subimage (t : texture) (c : context2d) : gl_error + texture :=
  if (cv_width c <=? tex_w t)%Z && (cv_height c <=? tex_h t)%Z
  then inr (Texture (tex_w t) (tex_h t) (display c)) else inl InvalidValue.

(** Row [j] from the canvas's top row: regl does not flip. *)
Definition texel `{Quantizer} (cov : coverage) (t : texture) (i j : Z) : rgba8 :=
  if (0 <=? i)%Z && (i <? tex_w t)%Z && (0 <=? j)%Z && (j <? tex_h t)%Z
  then raster_px cov (tex_src t) i j else transparent8.

Definition nearest_index (u : Q) (size : Z) : Z := Z.max 0 (Z.min (size - 1) (Qfloor (u * inject_Z size))).

Definition sample `{Quantizer} (cov : coverage) (t : texture) (u v : Q) : rgba8 :=
  texel cov t (nearest_index u (tex_w t)) (nearest_index v (tex_h t)).

(** [attributes.position] (lines 83-90): two triangles. *)
Definition quad_positions : list (Q * Q) :=
  [(-1, -1); (1, -1); (1, 1); (-1, -1); (1, 1); (-1, 1)]%Q.

(** Line 61. *)
Definition uv_of (p : Q * Q) : Q * Q := ((1 # 2) * (1 - fst p), (1 # 2) * (1 - snd p))%Q.

Definition pixel_center (w h px py : Z) : Q * Q :=
  (2 * (inject_Z px + (1 # 2)) / inject_Z w - 1, 2 * (inject_Z py + (1 # 2)) / inject_Z h - 1)%Q.

Definition edge (a b p : Q * Q) : Q :=
  ((fst b - fst a) * (snd p - snd a) - (snd b - snd a) * (fst p - fst a))%Q.

Definition in_triangle (a b c p : Q * Q) : bool :=
  let e1 := edge a b p in let e2 := edge b c p in let e3 := edge c a p in
  (Qle_bool 0 e1 && Qle_bool 0 e2 && Qle_bool 0 e3) ||
  (Qle_bool e1 0 && Qle_bool e2 0 && Qle_bool e3 0).

Fixpoint triangles (vs : list (Q * Q)) : list ((Q * Q) * (Q * Q) * (Q * Q)) :=
  match vs with
  | a :: b :: c :: rest => (a, b, c) :: triangles rest
  | _ => []
  end.

Definition quad_covers (p : Q * Q) : bool :=
  existsb (fun '(a, b, c) => in_triangle a b c p) (triangles quad_positions).

(** The fragment shader (lines 75-78). *)
Definition fragment `{Quantizer} (cov : coverage) (base mask : texture) (uv : Q * Q) : rgba8 :=
  let c := sample cov base (fst uv) (snd uv) in
  let m := sample cov mask (fst uv) (snd uv) in
  RGBA8 (r8 c) (g8 c) (b8 c) (r8 m).

Record fb_px := FbPx { fb_color : rgba8; fb_depth : Q }.

(** [gl_Position.z = 0] gives window depth 1/2 (depth range [0, 1]). *)
Definition quad_depth : Q := 1 # 2.

(** Lines 97-105, rounded to 8 bits. *)
Definition blend_ch (s a d : Z) : Z :=
  round_nearest (inject_Z s * (inject_Z a / 255) + inject_Z d * (1 - inject_Z a / 255)).

Definition blend (src dst : rgba8) : rgba8 :=
  let a := a8 src in
  RGBA8 (blend_ch (r8 src) a (r8 dst)) (blend_ch (g8 src) a (g8 dst))
        (blend_ch (b8 src) a (b8 dst)) (blend_ch (a8 src) a (a8 dst)).

Definition draw_fragment (src : rgba8) (p : fb_px) : fb_px :=
  if Qlt_le_dec quad_depth (fb_depth p) then FbPx (blend src (fb_color p)) quad_depth else p.

Definition framebuffer := Z -> Z -> fb_px.

(** [drawLine(...)]: a fragment per covered pixel centre. *)
Definition drawLine `{Quantizer} (cov : coverage) (w h : Z) (base mask : texture) (fb : framebuffer)
  : framebuffer :=
  fun px py =>
    let p := pixel_center w h px py in
    if quad_covers p then draw_fragment (fragment cov base mask (uv_of p)) (fb px py) else fb px py.

(** [regl.clear({color: [0, 0, 0, 1]})] and [regl.clear({depth: 1})]. *)
Definition clear_color (fb : framebuffer) : framebuffer :=
  fun px py => FbPx (RGBA8 0 0 0 255) (fb_depth (fb px py)).
Definition clear_depth (fb : framebuffer) : framebuffer :=
  fun px py => FbPx (fb_color (fb px py)) 1.

Lemma Qfloor_unique (z : Z) (q : Q) : (inject_Z z <= q < inject_Z z + 1)%Q -> Qfloor q = z.
Proof.
  intros [H1 H2]. pose proof (Qfloor_le q) as A. pose proof (Qlt_floor q) as B.
  assert (C1 : (inject_Z (Qfloor q) < inject_Z (z + 1))%Q)
    by (rewrite inject_Z_plus; change (inject_Z 1) with 1%Q; lra).
  assert (C2 : (inject_Z z < inject_Z (Qfloor q + 1))%Q) by lra.
  rewrite <- Zlt_Qlt in C1, C2. lia.
Qed.

(** One side of the buffer: the viewport side times the ratio, truncated. *)
Lemma surface_side_bounds (w : Z) (dpr : Q) :
  (0 <= w)%Z -> (0 <= dpr)%Q ->
  (0 <= Qfloor (inject_Z w * pixelRatio dpr) <= 2 * w)%Z /\
  ((2 <= dpr)%Q -> Qfloor (inject_Z w * pixelRatio dpr) = (2 * w)%Z).
Proof.
  intros Hw Hd. unfold pixelRatio.
  assert (Hw' : (0 <= inject_Z w)%Q) by qz.
  assert (R : (0 <= Qmin 2 dpr <= 2)%Q) by (split; [apply Q.min_glb; lra | apply Q.le_min_l]).
  split.
  - rewrite <- (Qfloor_Z 0), <- (Qfloor_Z (2 * w)). split; apply Qfloor_resp_le.
    + change (inject_Z 0) with 0%Q. nra.
    + rewrite inject_Z_mult. change (inject_Z 2) with 2%Q. nra.
  - intros H2. rewrite Q.min_l by lra. rewrite <- (Qfloor_Z (2 * w)). apply Qfloor_comp.
    rewrite inject_Z_mult. change (inject_Z 2) with 2%Q. ring.
Qed.

Lemma Q_of_Z_bounds (lo x hi : Z) : (lo <= x <= hi)%Z -> (inject_Z lo <= inject_Z x <= inject_Z hi)%Q.
Proof. intros. rewrite <- !Zle_Qle. lia. Qed.

Lemma nearest_index_range (u : Q) (n : Z) : (0 < n)%Z -> (0 <= nearest_index u n < n)%Z.
Proof. unfold nearest_index. lia. Qed.

(** On a buffer [k] times as wide, pixel [p] samples texel [w - 1 - p / k]. *)
Lemma nearest_index_mirror (k w p : Z) :
  (0 < k)%Z -> (0 <= p < k * w)%Z ->
  nearest_index ((1 # 2) * (1 - (2 * (inject_Z p + (1 # 2)) / inject_Z (k * w) - 1))) w = (w - 1 - p / k)%Z.
Proof.
  intros Hk Hp. unfold nearest_index.
  assert (Hw : (0 < w)%Z) by nia.
  assert (Hwq : (0 < inject_Z w)%Q) by qz.
  assert (Hkq : (0 < inject_Z k)%Q) by qz.
  pose proof (Z.div_mod p k ltac:(lia)) as Ed. pose proof (Z.mod_pos_bound p k Hk) as Em.
  set (q := (p / k)%Z) in *. set (r := (p mod k)%Z) in *.
  assert (Hq : (0 <= q < w)%Z) by nia.
  rewrite (Qfloor_unique (w - 1 - q)); [lia|].
  assert (E : ((1 # 2) * (1 - (2 * (inject_Z p + (1 # 2)) / inject_Z (k * w) - 1)) * inject_Z w ==
               inject_Z w - (inject_Z p + (1 # 2)) / inject_Z k)%Q)
    by (rewrite inject_Z_mult; field; split; lra).
  rewrite E.
  assert (P : (inject_Z p == inject_Z k * inject_Z q + inject_Z r)%Q)
    by (rewrite <- inject_Z_mult, <- inject_Z_plus, <- Ed; reflexivity).
  assert (R0 : (0 <= inject_Z r)%Q) by qz.
  assert (R1 : (inject_Z r + 1 <= inject_Z k)%Q)
    by (change 1%Q with (inject_Z 1); rewrite <- inject_Z_plus; qz).
  assert (D : ((inject_Z p + (1 # 2)) / inject_Z k == inject_Z q + (inject_Z r + (1 # 2)) / inject_Z k)%Q)
    by (rewrite P; field; lra).
  assert (D1 : (0 < (inject_Z r + (1 # 2)) / inject_Z k)%Q) by (apply Qlt_shift_div_l; lra).
  assert (D2 : ((inject_Z r + (1 # 2)) / inject_Z k <= 1)%Q) by (apply Qle_shift_div_r; lra).
  rewrite D. replace (w - 1 - q)%Z with (w + - 1 + - q)%Z by lia.
  rewrite !inject_Z_plus, inject_Z_opp. change (inject_Z (-1)) with (-1)%Q.
  lra.
Qed.

Lemma quad_covers_square x y : (-1 <= x <= 1)%Q -> (-1 <= y <= 1)%Q -> quad_covers (x, y) = true.
Proof.
  intros Hx Hy. unfold quad_covers, in_triangle, edge. simpl.
  destruct (Qlt_le_dec y x) as [Hyx|Hxy].
  - apply orb_true_iff; left; apply orb_true_iff; left.
    rewrite !andb_true_iff, !Qle_bool_iff. repeat split; lra.
  - apply orb_true_iff; right; apply orb_true_iff; left; apply orb_true_iff; left.
    rewrite !andb_true_iff, !Qle_bool_iff. repeat split; lra.
Qed.

Lemma blend_ch_lerp s a d :
  (inject_Z s * (inject_Z a / 255) + inject_Z d * (1 - inject_Z a / 255) ==
   lerpQ (inject_Z d) (inject_Z s) (inject_Z a / 255))%Q.
Proof. unfold lerpQ. ring. Qed.

Lemma blend_ch_value_bounds s a d :
  (0 <= a <= 255)%Z ->
  (inject_Z (Z.min s d) <= inject_Z s * (inject_Z a / 255) + inject_Z d * (1 - inject_Z a / 255)
     <= inject_Z (Z.max s d))%Q.
Proof.
  intros Ha. rewrite blend_ch_lerp. apply lerpQ_bounds.
  - apply Q_of_Z_bounds. lia.
  - apply Q_of_Z_bounds. lia.
  - pose proof (Q_of_Z_bounds 0 a 255 Ha) as [H0 H1]. change (inject_Z 0) with 0%Q in H0.
    change (inject_Z 255) with 255%Q in H1. split; [apply Qle_shift_div_l | apply Qle_shift_div_r]; lra.
Qed.

Lemma clip_coord_bounds (w p : Z) :
  (0 <= p < w)%Z -> (-1 <= 2 * (inject_Z p + (1 # 2)) / inject_Z w - 1 <= 1)%Q.
Proof.
  intros Hp.
  assert (Hw : (0 < inject_Z w)%Q) by qz.
  pose proof (Q_of_Z_bounds 0 p (w - 1) ltac:(lia)) as [A B].
  rewrite <- Z.add_opp_r, inject_Z_plus, inject_Z_opp in B. change (inject_Z 0) with 0%Q in A.
  change (inject_Z 1) with 1%Q in B.
  assert (L : (0 <= 2 * (inject_Z p + (1 # 2)) / inject_Z w)%Q) by (apply Qle_shift_div_l; lra).
  assert (U : (2 * (inject_Z p + (1 # 2)) / inject_Z w <= 2)%Q) by (apply Qle_shift_div_r; lra).
  lra.
Qed.

Lemma pixel_center_covered w h px py :
  (0 <= px < w)%Z -> (0 <= py < h)%Z -> quad_covers (pixel_center w h px py) = true.
Proof. intros Hx Hy. apply quad_covers_square; by apply clip_coord_bounds. Qed.

(** C12 (drawLine_pixel): for [w x h] textures on a buffer [k] times as large, [drawLine]
    gives pixel [(px, py)] the fragment of texel [(w - 1 - px / k, h - 1 - py / k)]
    through the depth test and blend: each texel a [k x k] block, the canvas
    mirrored left to right. *)
Theorem drawLine_pixel `{Quantizer} cov k w h base mask fb px py :
  (0 < k)%Z -> tex_w base = w -> tex_h base = h -> tex_w mask = w -> tex_h mask = h ->
  (0 <= px < k * w)%Z -> (0 <= py < k * h)%Z ->
  let i := (w - 1 - px / k)%Z in
  let j := (h - 1 - py / k)%Z in
  drawLine cov (k * w) (k * h) base mask fb px py =
  draw_fragment
    (RGBA8 (r8 (texel cov base i j)) (g8 (texel cov base i j)) (b8 (texel cov base i j))
           (r8 (texel cov mask i j)))
    (fb px py).
Proof.
  intros Hk Bw Bh Mw Mh Hpx Hpy i j. unfold drawLine.
  rewrite pixel_center_covered by lia.
  unfold fragment, sample, uv_of, pixel_center. simpl fst; simpl snd.
  rewrite Bw, Bh, Mw, Mh, !nearest_index_mirror by lia. done.
Qed.

(** C24 (blend_ch_bounds): a blended channel lies between source and destination;
    mask 0 keeps the destination, mask 255 gives the source. *)
Theorem blend_ch_bounds s a d :
  (0 <= a <= 255)%Z ->
  (Z.min s d <= blend_ch s a d <= Z.max s d)%Z /\
  blend_ch s 0 d = d /\ blend_ch s 255 d = s.
Proof.
  intros Ha. unfold blend_ch. split; [|split].
  - apply round_nearest_bounds, blend_ch_value_bounds, Ha.
  - rewrite <- (round_nearest_Z d) at 2. apply round_nearest_compat.
    change (inject_Z 0) with 0%Q. unfold Qdiv. ring.
  - rewrite <- (round_nearest_Z s) at 2. apply round_nearest_compat.
    change (inject_Z 255) with 255%Q. field.
Qed.

Lemma blend_ch_bounds_witness :
  (0 <= 128 <= 255)%Z /\ blend (RGBA8 255 0 0 128) (RGBA8 0 0 0 255) = RGBA8 128 0 0 191 /\
  (Z.min 255 0 <= blend_ch 255 128 0 <= Z.max 255 0)%Z.
Proof.
  split; [lia|]. split; [vm_compute; reflexivity|].
  apply (blend_ch_bounds 255 128 0). lia.
Defined.

(** C26 (regl_surface_bounds): the drawing buffer regl sizes from the
    viewport is at most twice the viewport on each side; at a device pixel
    ratio of 2 or more it is exactly twice, and at ratio 1 it is the
    viewport.  So the buffer is [k] times the canvases with [k] = 1 or 2. *)
Theorem regl_surface_bounds w h dpr :
  (0 <= w)%Z -> (0 <= h)%Z -> (0 <= dpr)%Q ->
  (0 <= fst (regl_surface w h dpr) <= 2 * w)%Z /\ (0 <= snd (regl_surface w h dpr) <= 2 * h)%Z /\
  ((2 <= dpr)%Q -> regl_surface w h dpr = (2 * w, 2 * h)%Z) /\
  regl_surface w h 1 = (w, h).
Proof.
  intros Hw Hh Hd. unfold regl_surface; cbn [fst snd].
  destruct (surface_side_bounds w dpr Hw Hd) as [Bw Ew].
  destruct (surface_side_bounds h dpr Hh Hd) as [Bh Eh].
  split; [done|]. split; [done|]. split.
  - intros H2. by rewrite Ew, Eh.
  - unfold pixelRatio. change (Qmin 2 1) with 1%Q.
    rewrite <- (Qfloor_Z w), <- (Qfloor_Z h) at 2. f_equal; apply Qfloor_comp; ring.
Qed.

Lemma blend_alpha_below a :
  (0 < a < 255)%Z -> (blend_ch a a 255 < 255)%Z.
Proof.
  intros Ha. unfold blend_ch.
  pose proof (Q_of_Z_bounds 1 a 254 ltac:(lia)) as [A B].
  change (inject_Z 1) with 1%Q in A. change (inject_Z 254) with 254%Q in B.
  assert (Hv : (inject_Z a * (inject_Z a / 255) + inject_Z 255 * (1 - inject_Z a / 255) <= 254 + (1 # 255))%Q).
  { change (inject_Z 255) with 255%Q.
    assert (E : (inject_Z a * (inject_Z a / 255) + 255 * (1 - inject_Z a / 255) ==
                 255 - inject_Z a + inject_Z a * inject_Z a / 255)%Q) by field.
    rewrite E. apply (Qplus_le_l _ _ (inject_Z a - 255)).
    assert (E2 : (255 - inject_Z a + inject_Z a * inject_Z a / 255 + (inject_Z a - 255) ==
                  inject_Z a * inject_Z a / 255)%Q) by ring.
    rewrite E2. apply Qle_shift_div_r; [reflexivity|]. nra. }
  apply round_nearest_mono in Hv. change (round_nearest (254 + (1 # 255))) with 254%Z in Hv. lia.
Qed.

(** C15 (blend_alpha_loses_opacity): alpha is blended with [src alpha, one minus
    src alpha] too, so a mask byte strictly between 0 and 255 over an opaque
    pixel leaves alpha below 255; two white strands at 128 over black give
    colour 192 above alpha 159, not a valid premultiplied pixel. *)
Theorem blend_alpha_loses_opacity src dst :
  (0 < a8 src < 255)%Z -> a8 dst = 255%Z ->
  (a8 (blend src dst) < 255)%Z /\
  let w := RGBA8 255 255 255 128 in
  let p := blend w (blend w (RGBA8 0 0 0 255)) in
  p = RGBA8 192 192 192 159 /\ (a8 p < r8 p)%Z.
Proof.
  intros Ha Hd. split.
  - unfold blend. simpl. rewrite Hd. by apply blend_alpha_below.
  - vm_compute. split; reflexivity.
Qed.

Lemma blend_alpha_loses_opacity_witness :
  (a8 (blend (RGBA8 128 128 128 128) (RGBA8 0 0 0 255)) < 255)%Z.
Proof.
  destruct (blend_alpha_loses_opacity (RGBA8 128 128 128 128) (RGBA8 0 0 0 255)) as [H _];
    [simpl; lia | reflexivity | exact H].
Defined.

Lemma drawLine_pixel_witness :
  let t := Texture 2 2 [DFill 0 0 1 1 1 (PColor (RGBA8 255 0 0 255))] in
  let cov : coverage := fun _ _ _ => false in
  let fb : framebuffer := fun _ _ => FbPx black8 1 in
  regl_surface 2 2 2 = (2 * 2, 2 * 2)%Z /\
  drawLine cov (2 * 2) (2 * 2) t t fb 3%Z 2%Z = draw_fragment (RGBA8 255 0 0 255) (fb 3%Z 2%Z).
Proof.
  intros t cov fb. split; [vm_compute; reflexivity|].
  rewrite (drawLine_pixel cov 2 2 2 t t fb 3%Z 2%Z) by (reflexivity || lia).
  vm_compute. reflexivity.
Defined.

Lemma regl_surface_bounds_witness :
  (0 <= 1920)%Z /\ (0 <= 1080)%Z /\ (0 <= 3 # 2)%Q /\
  (0 <= fst (regl_surface 1920 1080 (3 # 2)) <= 2 * 1920)%Z /\ regl_surface 1920 1080 (3 # 2) = (2880, 1620)%Z.
Proof.
  assert (Hd : (0 <= 3 # 2)%Q) by (apply Qle_bool_imp_le; reflexivity).
  split; [lia|]. split; [lia|]. split; [exact Hd|].
  split; [apply (regl_surface_bounds 1920 1080 (3 # 2)); (lia || exact Hd) | reflexivity].
Defined.
