(* ===== verification/Pixels.v ===== *)
(** * The pixels of one [drawOnCtx] call: the raster paints the display
    list in order and the table colours are opaque, so a pixel shows the
    narrowest pass covering it.  Stroke geometry is the parameter [cov],
    assumed blind to the stroke's colour ([cov_style_blind]).  Theorems:
    the pixels of a call, the fragment of a strand, repeated calls differ. *)

From S2P Require Import Prelude Css Canvas Layer Compositor.
From stdpp Require Import base list.
From Stdlib Require Import ZArith QArith Lia Psatz Reals.

(** The least [l] in [1..n] with [covers l], if any. *)
Fixpoint narrowest (covers : nat -> bool) (n : nat) : option nat :=
  match n with
  | O => None
  | S n' =>
      match narrowest covers n' with
      | Some l => Some l
      | None => if covers (S n') then Some (S n') else None
      end
  end.

Lemma narrowest_passes (covers : nat -> bool) :
  narrowest covers passes =
  match narrowest covers (passes - 1) with
  | Some l => Some l
  | None => if covers passes then Some passes else None
  end.
Proof. reflexivity. Qed.

(** Band [passes] has the stale style over transparent. *)
Definition band_color `{Quantizer} (data : image_data) (stale : rgba8) (b : option nat) : rgba8 :=
  match b with
  | None => transparent8
  | Some l => if (l =? passes)%nat then source_over8 stale transparent8
              else table_color (id_data data) l
  end.

(** The fragment of a band: colour-table RGB, mask-table red as alpha. *)
Definition band_fragment `{Quantizer} (gd gm : image_data) (sC sM : rgba8) (b : option nat) : rgba8 :=
  RGBA8 (r8 (band_color gd sC b)) (g8 (band_color gd sC b)) (b8 (band_color gd sC b))
        (r8 (band_color gm sM b)).

Section Bands.
Context `{Quantizer}.
Variable cov : coverage.

Hypothesis cov_style_blind : forall p w s s' jn cp sc i j,
  cov (StrokeOp p w s jn cp sc) i j = cov (StrokeOp p w s' jn cp sc) i j.

Definition layer_covers (w : Z) (ctx : context2d) (e cy : R) (i j : Z) (l : nat) : bool :=
  cov (StrokeOp (curve_path (IZR w / 2) cy e) (inject_Z (Z.of_nat l * 2)) black8
                (lineJoin ctx) (lineCap ctx) (cv_scale ctx)) i j.

Definition layer_px (w : Z) (ctx : context2d) (data : image_data) (e cy : R) (i j : Z) : rgba8 :=
  band_color data (strokeStyle ctx) (narrowest (layer_covers w ctx e cy i j) passes).

Lemma layer_op_covers w ctx e cy l s i j :
  draw_px cov i j (transparent8) (layer_op w ctx e cy l s) =
  if layer_covers w ctx e cy i j l then source_over8 s transparent8 else transparent8.
Proof. unfold layer_op, layer_covers. simpl. by rewrite (cov_style_blind _ _ s black8). Qed.

Lemma fold_strokes_narrowest w ctx data e cy i j n acc :
  fold_left (draw_px cov i j)
    (map (fun l => layer_op w ctx e cy l (table_color data l)) (rev (seq 1 n))) acc =
  match narrowest (layer_covers w ctx e cy i j) n with
  | Some l => table_color data l
  | None => acc
  end.
Proof.
  revert acc. induction n as [|n IH]; intros acc; [done|].
  rewrite seq_S, rev_app_distr. cbn [rev app map fold_left]. rewrite IH.
  simpl narrowest. destruct (narrowest _ n) as [l|]; [done|].
  unfold layer_op, layer_covers. cbn [draw_px so_style].
  replace (1 + n)%nat with (S n) by lia.
  rewrite (cov_style_blind _ _ (table_color data (S n)) black8).
  destruct (cov _ i j); [|done]. by apply source_over8_opaque.
Qed.

Lemma narrowest_none (covers : nat -> bool) n :
  narrowest covers n = None -> forall k, (1 <= k <= n)%nat -> covers k = false.
Proof.
  induction n as [|n IH]; intros E k Hk; [lia|]. simpl in E.
  destruct (narrowest covers n); [discriminate|]. destruct (covers (S n)) eqn:C; [discriminate|].
  destruct (Nat.eq_dec k (S n)) as [->|]; [done | apply IH; [done | lia]].
Qed.

Lemma narrowest_spec (covers : nat -> bool) n l :
  narrowest covers n = Some l <->
  (1 <= l <= n)%nat /\ covers l = true /\ forall k, (1 <= k < l)%nat -> covers k = false.
Proof.
  revert l. induction n as [|n IH]; intros l; simpl.
  { split; [discriminate | lia]. }
  destruct (narrowest covers n) as [l'|] eqn:En.
  - destruct (proj1 (IH l') eq_refl) as (Hl' & Hc' & Hmin). split.
    + intros [= <-]. split; [lia|]. auto.
    + intros (Hl & Hc & Hm). f_equal.
      destruct (Nat.lt_total l l') as [Hlt | [Heq | Hgt]]; [| done |].
      * rewrite Hmin in Hc; [discriminate | lia].
      * rewrite Hm in Hc'; [discriminate | lia].
  - pose proof (narrowest_none covers n En) as Hnone.
    destruct (covers (S n)) eqn:Cs; split.
    + intros [= <-]. repeat split; [lia | lia | done |]. intros k Hk. apply Hnone. lia.
    + intros (Hl & Hc & Hm). f_equal.
      destruct (Nat.eq_dec l (S n)) as [-> | Hne]; [done|]. rewrite Hnone in Hc; [discriminate | lia].
    + discriminate.
    + intros (Hl & Hc & Hm). destruct (Nat.eq_dec l (S n)) as [-> | Hne]; [congruence|].
      rewrite Hnone in Hc; [discriminate | lia].
Qed.

Lemma center_in_canvas (s Wd Ht i j : Z) :
  (1 <= s)%Z -> (0 <= i < Wd)%Z -> (0 <= j < Ht)%Z ->
  center_in (inject_Z s * 0) (inject_Z s * 0) (inject_Z s * inject_Z Wd) (inject_Z s * inject_Z Ht) i j = true.
Proof.
  intros Hs Hi Hj.
  assert (Q1 : forall a b : Z, (a <= b)%Z -> (inject_Z a <= inject_Z b)%Q)
    by (intros; rewrite <- Zle_Qle; lia).
  assert (Ew : (inject_Z (i + 1) <= inject_Z s * inject_Z Wd)%Q)
    by (rewrite <- inject_Z_mult; apply Q1; nia).
  assert (Eh : (inject_Z (j + 1) <= inject_Z s * inject_Z Ht)%Q)
    by (rewrite <- inject_Z_mult; apply Q1; nia).
  rewrite inject_Z_plus in Ew, Eh. change (inject_Z 1) with 1%Q in Ew, Eh.
  pose proof (Q1 0%Z i ltac:(lia)). pose proof (Q1 0%Z j ltac:(lia)).
  change (inject_Z 0) with 0%Q in *.
  apply center_in_pos; [lra | lra |]. rewrite Qmult_0_r. repeat split; lra.
Qed.

Lemma canvas_px_drawOnCtx w ctx data e cy i j :
  table_ok data = true -> (1 <= cv_scale ctx)%Z ->
  (0 <= i < cv_width ctx)%Z -> (0 <= j < cv_height ctx)%Z ->
  canvas_px cov (drawOnCtx w ctx data e cy) i j = layer_px w ctx data e cy i j.
Proof.
  intros Hok Hs Hi Hj.
  destruct (drawOnCtx_frame w ctx data e cy) as (_ & _ & _ & Ew & Eh).
  unfold canvas_px. rewrite Ew, Eh.
  replace (_ && _ && _ && _) with true
    by (symmetry; rewrite !andb_true_iff, !Z.leb_le, !Z.ltb_lt; lia).
  rewrite drawOnCtx_display_ops by done. unfold call_ops.
  rewrite raster_px_clear by (apply center_in_canvas; lia).
  unfold raster_px. rewrite fold_left_cons, layer_op_covers, fold_strokes_narrowest.
  unfold layer_px, band_color. rewrite narrowest_passes.
  destruct (narrowest _ (passes - 1)) as [l|] eqn:En.
  - apply narrowest_spec in En as (Hl & _).
    by replace (l =? passes)%nat with false by (symmetry; apply Nat.eqb_neq; lia).
  - by destruct (layer_covers _ _ _ _ _ _ passes); rewrite ?Nat.eqb_refl.
Qed.

(** C7 (drawOnCtx_pixel): after a call on a 25-pixel table a canvas pixel
    is transparent if no pass covers it, table pixel [l] if the narrowest
    covering pass is [l <= 24], and the stale style over transparent if only
    the widest does. *)
Theorem drawOnCtx_pixel w ctx data e cy i j :
  table_ok data = true -> (1 <= cv_scale ctx)%Z ->
  (0 <= i < cv_width ctx)%Z -> (0 <= j < cv_height ctx)%Z ->
  canvas_px cov (drawOnCtx w ctx data e cy) i j = layer_px w ctx data e cy i j.
Proof. exact (canvas_px_drawOnCtx w ctx data e cy i j). Qed.

Lemma sample_texture_of c u v :
  (0 < cv_width c)%Z -> (0 < cv_height c)%Z ->
  sample cov (texture_of c) u v =
  canvas_px cov c (nearest_index u (cv_width c)) (nearest_index v (cv_height c)).
Proof.
  intros Hw Hh. unfold sample, texel, canvas_px, texture_of. cbn [tex_w tex_h tex_src].
  pose proof (nearest_index_range u _ Hw). pose proof (nearest_index_range v _ Hh).
  replace (_ && _ && _ && _) with true
    by (symmetry; rewrite !andb_true_iff, !Z.leb_le, !Z.ltb_lt; lia).
  done.
Qed.

Lemma layer_covers_frame w c m e cy i j :
  lineJoin m = lineJoin c -> lineCap m = lineCap c -> cv_scale m = cv_scale c ->
  layer_covers w m e cy i j = layer_covers w c e cy i j.
Proof. intros Hj Hc Hs. unfold layer_covers. by rewrite Hj, Hc, Hs. Qed.

Lemma fragment_drawOnCtx w c m gd gm e cy u v :
  table_ok gd = true -> table_ok gm = true -> (1 <= cv_scale c)%Z ->
  cv_width m = cv_width c -> cv_height m = cv_height c -> cv_scale m = cv_scale c ->
  lineJoin m = lineJoin c -> lineCap m = lineCap c ->
  (0 < cv_width c)%Z -> (0 < cv_height c)%Z ->
  let i := nearest_index u (cv_width c) in
  let j := nearest_index v (cv_height c) in
  let b := narrowest (layer_covers w c e cy i j) passes in
  fragment cov (texture_of (drawOnCtx w c gd e cy)) (texture_of (drawOnCtx w m gm e cy)) (u, v) =
  band_fragment gd gm (strokeStyle c) (strokeStyle m) b.
Proof.
  intros Hgd Hgm Hs Ew Eh Es Ej Ec Hw Hh i j b.
  destruct (drawOnCtx_frame w c gd e cy) as (_ & _ & _ & Cw & Ch).
  destruct (drawOnCtx_frame w m gm e cy) as (_ & _ & _ & Mw & Mh).
  pose proof (nearest_index_range u _ Hw). pose proof (nearest_index_range v _ Hh).
  unfold fragment. cbn [fst snd].
  rewrite !sample_texture_of by lia. rewrite Cw, Ch, Mw, Mh, Ew, Eh.
  rewrite !canvas_px_drawOnCtx by (rewrite ?Ew, ?Eh, ?Es; lia || done).
  unfold layer_px, band_fragment. by rewrite (layer_covers_frame w c m) by done.
Qed.

(** C8 (layer_fragment): a strand's two canvases share their bands, so the
    fragment at [(u, v)] pairs the colour-table and mask-table pixels of the
    narrowest pass covering the texel [(u, v)] selects. *)
Theorem layer_fragment w c m gd gm e cy u v :
  table_ok gd = true -> table_ok gm = true -> (1 <= cv_scale c)%Z ->
  cv_width m = cv_width c -> cv_height m = cv_height c -> cv_scale m = cv_scale c ->
  lineJoin m = lineJoin c -> lineCap m = lineCap c ->
  (0 < cv_width c)%Z -> (0 < cv_height c)%Z ->
  let i := nearest_index u (cv_width c) in
  let j := nearest_index v (cv_height c) in
  let b := narrowest (layer_covers w c e cy i j) passes in
  fragment cov (texture_of (drawOnCtx w c gd e cy)) (texture_of (drawOnCtx w m gm e cy)) (u, v) =
  band_fragment gd gm (strokeStyle c) (strokeStyle m) b.
Proof. exact (fragment_drawOnCtx w c m gd gm e cy u v). Qed.

(** C10 (drawOnCtx_repeat_differs): two identical calls on a canvas with the
    default black style differ on a pixel only the widest pass covers: black
    after the first, table pixel 1 after the second. *)
Theorem drawOnCtx_repeat_differs w ctx data e cy i j :
  table_ok data = true -> strokeStyle ctx = black8 -> (1 <= cv_scale ctx)%Z ->
  (0 <= i < cv_width ctx)%Z -> (0 <= j < cv_height ctx)%Z ->
  narrowest (layer_covers w ctx e cy i j) passes = Some passes ->
  let c1 := drawOnCtx w ctx data e cy in
  canvas_px cov c1 i j = black8 /\
  canvas_px cov (drawOnCtx w c1 data e cy) i j = table_color (id_data data) 1.
Proof.
  intros Hok Hs Hsc Hi Hj Hn. cbv zeta.
  destruct (drawOnCtx_frame w ctx data e cy) as (J & K & S & W & Ht).
  split.
  - rewrite canvas_px_drawOnCtx by done. unfold layer_px, band_color. rewrite Hn, Nat.eqb_refl, Hs.
    by apply source_over8_opaque.
  - rewrite (canvas_px_drawOnCtx w (drawOnCtx w ctx data e cy)) by (rewrite ?W, ?Ht, ?S; done || lia).
    unfold layer_px, band_color. rewrite (layer_covers_frame w ctx (drawOnCtx w ctx data e cy)) by done.
    rewrite Hn, Nat.eqb_refl, drawOnCtx_strokeStyle by done.
    by apply source_over8_opaque.
Qed.

End Bands.

(** ** Witnesses *)

(** Strokes at least [2 (i + 10)] wide cover column [i]. *)
Definition band_cov : coverage := fun so i _ => Qle_bool (inject_Z (2 * (i + 10))) (so_width so).

Lemma drawOnCtx_pixel_witness :
  table_ok sample_table = true /\
  canvas_px band_cov (drawOnCtx 10 sample_ctx sample_table 0 5) 0 0 = RGBA8 100 100 100 255.
Proof.
  split; [vm_compute; reflexivity|].
  rewrite (drawOnCtx_pixel band_cov (fun _ _ _ _ _ _ _ _ _ => eq_refl) 10 sample_ctx sample_table 0 5 0 0);
    [| vm_compute; reflexivity | simpl; lia | simpl; lia | simpl; lia].
  reflexivity.
Defined.

Definition sample_mask : image_data :=
  ImageData 1 25 (flatten_rgba (map (fun k => RGBA8 (5 * k) (5 * k) (5 * k) 255) (seqZ 0 25))).

Lemma layer_fragment_witness :
  table_ok sample_table = true /\ table_ok sample_mask = true /\
  fragment band_cov (texture_of (drawOnCtx 10 sample_ctx sample_table 0 5))
    (texture_of (drawOnCtx 10 sample_ctx sample_mask 0 5)) (0, 0)%Q = RGBA8 100 100 100 50.
Proof.
  split; [vm_compute; reflexivity|]. split; [vm_compute; reflexivity|].
  rewrite (layer_fragment band_cov (fun _ _ _ _ _ _ _ _ _ => eq_refl) 10 sample_ctx sample_ctx
             sample_table sample_mask 0 5 0 0);
    [| vm_compute; reflexivity | vm_compute; reflexivity | simpl; (reflexivity || lia) .. ].
  reflexivity.
Defined.

Definition edge_cov : coverage := fun so i _ => Qle_bool (inject_Z (2 * (i + 20))) (so_width so).

Lemma drawOnCtx_repeat_differs_witness :
  table_ok sample_table = true /\
  narrowest (layer_covers edge_cov 10 sample_ctx 0 5 5 0) passes = Some passes /\
  canvas_px edge_cov (drawOnCtx 10 sample_ctx sample_table 0 5) 5 0 = black8 /\
  canvas_px edge_cov (drawOnCtx 10 (drawOnCtx 10 sample_ctx sample_table 0 5) sample_table 0 5) 5 0 =
    RGBA8 10 10 10 255.
Proof.
  assert (Hok : table_ok sample_table = true) by (vm_compute; reflexivity).
  assert (Hn : narrowest (layer_covers edge_cov 10 sample_ctx 0 5 5 0) passes = Some passes) by reflexivity.
  split; [exact Hok|]. split; [exact Hn|].
  apply (drawOnCtx_repeat_differs edge_cov (fun _ _ _ _ _ _ _ _ _ => eq_refl) 10 sample_ctx sample_table 0 5 5 0);
    (reflexivity || exact Hok || exact Hn || (simpl; lia)).
Defined.
