(* ===== verification/Frame.v ===== *)
(** * The frame driver (src/script.js:45-50, 111-120, 164-201): start-up
    builds the tables, the canvases [ctx] and [maskCtx] and [count = 3]
    texture pairs; each frame clears to opaque black, then strand [i] takes
    phase [now / 1000 + i], redraws both canvases, uploads them into
    [textures[i]], draws the quad and clears depth.  The clock maps the
    index of a read to milliseconds.  Theorems: one frame's composite, the
    invariant of reachable states, the stale style, the depth clear. *)

From S2P Require Import Prelude Css Canvas Layer Gradient Compositor.
From stdpp Require Import base list.
From Stdlib Require Import ZArith QArith Reals Lia Psatz.

#[local] Open Scope dope_scope.

Record env := Env {
  innerWidth : Z; innerHeight : Z;   (** window.innerWidth / innerHeight *)
  bufW : Z; bufH : Z;                (** the WebGL drawing buffer's size *)
  has2d : bool                       (** whether canvases get a 2D context *)
}.

Record app_state := App {
  ctxC : context2d;                         (** [ctx] (line 111) *)
  ctxM : context2d;                         (** [maskCtx] (line 112) *)
  textures : list (texture * texture);      (** [textures] (line 165): [{base, mask}] *)
  fb : framebuffer                          (** the WebGL framebuffer *)
}.

(** [ETypeError]: destructuring an undefined [textures[i]]. *)
Inductive frame_error := EDom (e : dom_error) | EGl (e : gl_error) | ETypeError.

Definition lift_dom {A} (r : dom_error + A) : frame_error + A :=
  match r with inl e => inl (EDom e) | inr a => inr a end.
Definition lift_gl {A} (r : gl_error + A) : frame_error + A :=
  match r with inl e => inl (EGl e) | inr a => inr a end.

(** [const count = 3] (line 164). *)
Definition count : nat := 3.

Definition initial_fb : framebuffer := fun _ _ => FbPx transparent8 1.

(** [for (let i = 0; i < count; i++) textures.push({base: regl.texture(ctx),
    mask: regl.texture(maskCtx)})] (lines 166-172): [n] iterations, each
    appending a pair of snapshots of the canvases to [acc]. *)
Fixpoint push_textures (n : nat) (c m : context2d) (acc : list (texture * texture))
  : list (texture * texture) :=
  match n with
  | O => acc
  | S n' => push_textures n' c m (acc ++ [(texture_of c, texture_of m)])
  end.

Section Driver.
Context `{Quantizer}.
Variable cov : coverage.

(** Lines 45-50, 111-120, 164-172; the unused [texture], [maskTexture]
    (lines 113-114) are left out. *)
Definition startup (en : env) : frame_error + (image_data * image_data * app_state) :=
  gd <- lift_dom (getGradientData (has2d en) 25 colorStops color_of_stop) ;;
  gm <- lift_dom (getGradientData (has2d en) 25 colorStops mask_of_stop) ;;
  c <- lift_dom (makeCtx (innerWidth en) (innerHeight en) 1 (has2d en)) ;;
  m <- lift_dom (makeCtx (innerWidth en) (innerHeight en) 1 (has2d en)) ;;
  let c := set_lineCap CapRound (set_lineJoin JoinRound c) in
  let m := set_lineCap CapRound (set_lineJoin JoinRound m) in
  inr (gd, gm, App c m (push_textures count c m []) initial_fb).

(** Lines 180-199, clock reading [t] ms. *)
Definition strand (en : env) (gd gm : image_data) (i : nat) (t : R) (st : app_state)
  : frame_error + app_state :=
  let e := (t / 1000 + INR i)%R in
  match textures st !! i with
  | None => inl ETypeError
  | Some (base, mask) =>
      let cy := (IZR (innerHeight en) / 2)%R in
      let c := drawOnCtx (innerWidth en) (ctxC st) gd e cy in
      let m := drawOnCtx (innerWidth en) (ctxM st) gm e cy in
      base' <- lift_gl (subimage base c) ;;
      mask' <- lift_gl (subimage mask m) ;;
      let fb' := drawLine cov (bufW en) (bufH en) base' mask' (fb st) in
      inr (App c m (<[i := (base', mask')]> (textures st)) (clear_depth fb'))
  end.

(** Strands [i .. i+n-1]. *)
Fixpoint strands (en : env) (gd gm : image_data) (clock : nat -> R) (i n : nat) (st : app_state)
  : frame_error + app_state :=
  match n with
  | O => inr st
  | S n' => st' <- strand en gd gm i (clock i) st ;; strands en gd gm clock (S i) n' st'
  end.

(** The [regl.frame] callback (lines 174-201). *)
Definition frame (en : env) (gd gm : image_data) (clock : nat -> R) (st : app_state)
  : frame_error + app_state :=
  strands en gd gm clock 0 count (App (ctxC st) (ctxM st) (textures st) (clear_color (fb st))).

(** [regl.frame] calls the callback once per animation frame: one input
    [(environment, clock)] per call, stopping at the first throw. *)
Fixpoint run_frames (gd gm : image_data) (ins : list (env * (nat -> R))) (st : app_state)
  : frame_error + app_state :=
  match ins with
  | [] => inr st
  | (en, clock) :: rest => st' <- frame en gd gm clock st ;; run_frames gd gm rest st'
  end.
End Driver.

Definition phase (clock : nat -> R) (i : nat) : R := (clock i / 1000 + INR i)%R.

(** Textures fit the canvases; the depth test passes. *)
Definition frame_ready (st : app_state) : Prop :=
  length (textures st) = count /\
  Forall (fun '(b, m) => tex_w b = cv_width (ctxC st) /\ tex_h b = cv_height (ctxC st) /\
                         tex_w m = cv_width (ctxM st) /\ tex_h m = cv_height (ctxM st)) (textures st) /\
  forall px py, (quad_depth < fb_depth (fb st px py))%Q.

Definition black_px : rgba8 := RGBA8 0 0 0 255.

Lemma drawOnCtx_width w c d e cy : cv_width (drawOnCtx w c d e cy) = cv_width c.
Proof. apply drawOnCtx_frame. Qed.
Lemma drawOnCtx_height w c d e cy : cv_height (drawOnCtx w c d e cy) = cv_height c.
Proof. apply drawOnCtx_frame. Qed.

#[export] Hint Rewrite drawOnCtx_width drawOnCtx_height : dope_rw.

Section FrameFacts.
Context `{Quantizer}.
Variable cov : coverage.

Lemma subimage_same (t : texture) (c : context2d) :
  tex_w t = cv_width c -> tex_h t = cv_height c -> subimage t c = inr (texture_of c).
Proof.
  intros Hw Hh. unfold subimage, texture_of. rewrite Hw, Hh, !Z.leb_refl. done.
Qed.

Lemma strand_spec en gd gm i t st b m :
  textures st !! i = Some (b, m) ->
  tex_w b = cv_width (ctxC st) -> tex_h b = cv_height (ctxC st) ->
  tex_w m = cv_width (ctxM st) -> tex_h m = cv_height (ctxM st) ->
  (forall px py, (quad_depth < fb_depth (fb st px py))%Q) ->
  let e := (t / 1000 + INR i)%R in
  let cy := (IZR (innerHeight en) / 2)%R in
  let c := drawOnCtx (innerWidth en) (ctxC st) gd e cy in
  let m' := drawOnCtx (innerWidth en) (ctxM st) gm e cy in
  exists st', strand cov en gd gm i t st = inr st' /\ ctxC st' = c /\ ctxM st' = m' /\
    textures st' = <[i := (texture_of c, texture_of m')]> (textures st) /\
    forall px py, fb st' px py =
      FbPx (if quad_covers (pixel_center (bufW en) (bufH en) px py)
            then blend (fragment cov (texture_of c) (texture_of m') (uv_of (pixel_center (bufW en) (bufH en) px py)))
                       (fb_color (fb st px py))
            else fb_color (fb st px py)) 1.
Proof.
  intros Hi Bw Bh Mw Mh Hd. unfold strand. rewrite Hi.
  rewrite !subimage_same by (autorewrite with dope_rw; assumption).
  eexists; split; [reflexivity|]. cbn [ctxC ctxM textures fb]. repeat split.
  intros px py. unfold clear_depth, drawLine. f_equal.
  destruct (quad_covers _); [|done]. unfold draw_fragment.
  destruct (Qlt_le_dec quad_depth (fb_depth (fb st px py))) as [_|Hle]; [done|].
  exfalso. specialize (Hd px py). lra.
Qed.
End FrameFacts.

Section FrameTheorems.
Context `{Quantizer}.
Variable cov : coverage.

Definition strand_fragment (en : env) (c m : context2d) (px py : Z) : rgba8 :=
  fragment cov (texture_of c) (texture_of m) (uv_of (pixel_center (bufW en) (bufH en) px py)).

(** Side conditions of [strand_spec] after a strand. *)
Ltac ready_side C M F :=
  first [ rewrite C; autorewrite with dope_rw; cbn [ctxC ctxM]; assumption
        | rewrite M; autorewrite with dope_rw; cbn [ctxC ctxM]; assumption
        | intros ? ?; rewrite F; reflexivity ].

Lemma frame_spec en gd gm clock st :
  frame_ready st ->
  let w := innerWidth en in
  let cy := (IZR (innerHeight en) / 2)%R in
  let c0 := drawOnCtx w (ctxC st) gd (phase clock 0) cy in
  let c1 := drawOnCtx w c0 gd (phase clock 1) cy in
  let c2 := drawOnCtx w c1 gd (phase clock 2) cy in
  let m0 := drawOnCtx w (ctxM st) gm (phase clock 0) cy in
  let m1 := drawOnCtx w m0 gm (phase clock 1) cy in
  let m2 := drawOnCtx w m1 gm (phase clock 2) cy in
  exists st', frame cov en gd gm clock st = inr st' /\ ctxC st' = c2 /\ ctxM st' = m2 /\
    textures st' = [(texture_of c0, texture_of m0); (texture_of c1, texture_of m1); (texture_of c2, texture_of m2)] /\
    forall px py, (0 <= px < bufW en)%Z -> (0 <= py < bufH en)%Z ->
      fb st' px py =
      FbPx (blend (strand_fragment en c2 m2 px py)
             (blend (strand_fragment en c1 m1 px py)
               (blend (strand_fragment en c0 m0 px py) black_px))) 1.
Proof.
  intros (Hlen & Hsz & Hd) w cy c0 c1 c2 m0 m1 m2.
  destruct st as [cC cM tx f]. simpl in *.
  destruct tx as [|[b0 k0] [|[b1 k1] [|[b2 k2] [|? ?]]]]; try discriminate.
  apply Forall_cons in Hsz as [(B0w & B0h & K0w & K0h) Hsz].
  apply Forall_cons in Hsz as [(B1w & B1h & K1w & K1h) Hsz].
  apply Forall_cons in Hsz as [(B2w & B2h & K2w & K2h) _].
  unfold frame, strands.
  destruct (strand_spec cov en gd gm 0 (clock 0%nat) (App cC cM [(b0, k0); (b1, k1); (b2, k2)] (clear_color f)) b0 k0)
    as (s1 & E1 & C1 & M1 & T1 & F1); simpl; try done.
  rewrite E1.
  destruct (strand_spec cov en gd gm 1 (clock 1%nat) s1 b1 k1) as (s2 & E2 & C2 & M2 & T2 & F2);
    [rewrite T1; reflexivity | ready_side C1 M1 F1 .. |].
  rewrite E2.
  destruct (strand_spec cov en gd gm 2 (clock 2%nat) s2 b2 k2) as (s3 & E3 & C3 & M3 & T3 & F3);
    [rewrite T2, T1; reflexivity | rewrite ?C1, ?M1 in *; ready_side C2 M2 F2 .. |].
  rewrite E3. exists s3. split; [done|].
  rewrite C3, M3, C2, M2, C1, M1. split; [done|]. split; [done|]. split.
  - rewrite T3, T2, T1, C2, M2, C1, M1. reflexivity.
  - intros px py Hx Hy. rewrite F3, F2, F1, pixel_center_covered by done.
    rewrite C2, M2, C1, M1. reflexivity.
Qed.

(** C3 (frame_composite): from a ready state a frame never throws: it redraws
    both canvases with the phases of strands 0, 1, 2 in order, stores each
    strand's textures in its slot, and leaves every buffer pixel strand 2
    over strand 1 over strand 0 over opaque black, depth cleared. *)
Theorem frame_composite en gd gm clock st :
  frame_ready st ->
  let w := innerWidth en in
  let cy := (IZR (innerHeight en) / 2)%R in
  let c0 := drawOnCtx w (ctxC st) gd (phase clock 0) cy in
  let c1 := drawOnCtx w c0 gd (phase clock 1) cy in
  let c2 := drawOnCtx w c1 gd (phase clock 2) cy in
  let m0 := drawOnCtx w (ctxM st) gm (phase clock 0) cy in
  let m1 := drawOnCtx w m0 gm (phase clock 1) cy in
  let m2 := drawOnCtx w m1 gm (phase clock 2) cy in
  exists st', frame cov en gd gm clock st = inr st' /\ ctxC st' = c2 /\ ctxM st' = m2 /\
    textures st' = [(texture_of c0, texture_of m0); (texture_of c1, texture_of m1); (texture_of c2, texture_of m2)] /\
    forall px py, (0 <= px < bufW en)%Z -> (0 <= py < bufH en)%Z ->
      fb st' px py =
      FbPx (blend (strand_fragment en c2 m2 px py)
             (blend (strand_fragment en c1 m1 px py)
               (blend (strand_fragment en c0 m0 px py) black_px))) 1.
Proof. exact (frame_spec en gd gm clock st). Qed.
End FrameTheorems.

Section Reach.
Context `{Quantizer}.
Variable cov : coverage.

Lemma strands_ready en gd gm clock i n st :
  frame_ready st -> (i + n <= count)%nat ->
  exists st', strands cov en gd gm clock i n st = inr st' /\ frame_ready st'.
Proof.
  revert i st. induction n as [|n IH]; intros i st Hr Hin; [by exists st|].
  destruct Hr as (Hlen & Hsz & Hd).
  destruct (lookup_lt_is_Some_2 (textures st) i) as [[b m] Hi]; [lia|].
  pose proof (proj1 (Forall_lookup _ _) Hsz _ _ Hi) as (Bw & Bh & Mw & Mh). simpl in Bw.
  destruct (strand_spec cov en gd gm i (clock i) st b m Hi Bw Bh Mw Mh Hd)
    as (s1 & E1 & C1 & M1 & T1 & F1).
  simpl. rewrite E1. apply IH; [|lia].
  split; [|split].
  - by rewrite T1, length_insert.
  - rewrite T1, C1, M1. autorewrite with dope_rw. apply Forall_insert.
    + eapply Forall_impl; [exact Hsz|]. intros [b' m']. autorewrite with dope_rw. done.
    + unfold texture_of. cbn [tex_w tex_h]. autorewrite with dope_rw. repeat split.
  - intros px py. rewrite F1. reflexivity.
Qed.

Lemma frame_ready_after en gd gm clock st :
  frame_ready st -> exists st', frame cov en gd gm clock st = inr st' /\ frame_ready st'.
Proof.
  intros (Hlen & Hsz & Hd). apply strands_ready; [|done]. by repeat split.
Qed.

Lemma startup_ready en :
  has2d en = true ->
  exists gd gm st, startup en = inr (gd, gm, st) /\ frame_ready st.
Proof.
  intros H2. unfold startup. rewrite H2.
  destruct (getGradientData_rows color_of_stop (fun _ => true) colorStops 25 ltac:(lia) ltac:(discriminate)
              (stop_ok_and_true _ _ color_stops_ok)) as (_ & _ & ->).
  destruct (getGradientData_rows mask_of_stop is_gray colorStops 25 ltac:(lia) ltac:(discriminate))
    as (_ & _ & ->).
  { repeat constructor; apply mask_stop_ok; simpl; lra. }
  simpl. do 3 eexists. split; [reflexivity|].
  split; [reflexivity|]. split.
  - repeat constructor.
  - intros px py. reflexivity.
Qed.

(** Start-up, then frames with any window size and clock. *)
Inductive reachable (en0 : env) : image_data -> image_data -> app_state -> Prop :=
| reach_start gd gm st : startup en0 = inr (gd, gm, st) -> reachable en0 gd gm st
| reach_frame en gd gm clock st st' :
    reachable en0 gd gm st -> frame cov en gd gm clock st = inr st' -> reachable en0 gd gm st'.

Lemma reachable_ready en0 gd gm st : reachable en0 gd gm st -> frame_ready st.
Proof.
  induction 1 as [gd gm st E | en gd gm clock st st' R IH E].
  - unfold startup in E.
    destruct (has2d en0) eqn:H2; [|discriminate].
    destruct (startup_ready en0 H2) as (gd' & gm' & st0 & E' & Hr).
    unfold startup in E'. rewrite H2 in E'. rewrite E in E'. injection E' as -> -> ->. exact Hr.
  - destruct (frame_ready_after en gd gm clock st IH) as (st'' & E' & Hr).
    rewrite E in E'. injection E' as ->. exact Hr.
Qed.

(** C5 (reachable_frame_ok): start-up succeeds exactly when a 2D context
    exists (else [makeCtx] throws, line 19), and every reachable state is
    ready, so the next frame never throws, whatever the window and clock. *)
Theorem reachable_frame_ok en0 gd gm st :
  (has2d en0 = false -> startup en0 = inl (EDom SurfaceUnavailable)) /\
  (has2d en0 = true -> exists gd' gm' st0, startup en0 = inr (gd', gm', st0)) /\
  (reachable en0 gd gm st ->
   frame_ready st /\ forall en clock, exists st', frame cov en gd gm clock st = inr st').
Proof.
  split; [|split].
  - intros H2. unfold startup. by rewrite H2.
  - intros H2. destruct (startup_ready en0 H2) as (gd' & gm' & st0 & E & _). eauto.
  - intros R. pose proof (reachable_ready en0 gd gm st R) as Hr.
    split; [exact Hr|]. intros en clock.
    destruct (frame_ready_after en gd gm clock st Hr) as (st' & E & _). eauto.
Qed.

(** Every run of frames from a reachable state succeeds and stays reachable. *)
Lemma run_frames_reachable en0 gd gm ins st :
  reachable en0 gd gm st -> exists st', run_frames cov gd gm ins st = inr st' /\ reachable en0 gd gm st'.
Proof.
  revert st. induction ins as [|[en clock] ins IH]; intros st R; [by exists st|].
  destruct (frame_ready_after en gd gm clock st (reachable_ready en0 gd gm st R)) as (s1 & E & _).
  simpl. rewrite E. exact (IH s1 (reach_frame en0 en gd gm clock st s1 R E)).
Qed.

End Reach.

Section Stale.
Context `{Quantizer}.
Variable cov : coverage.

Lemma rows_table_ok (F : Z -> rgba8) :
  (forall j, opaque_ok (F j) = true) -> table_ok (ImageData 1 25 (flatten_rgba (map F (seqZ 0 25)))) = true.
Proof.
  intros Hop. unfold table_ok. cbn [id_data]. rewrite length_rows. apply andb_true_iff. split; [done|].
  apply (proj2 (forallb_forall _ _)), (proj1 (List.Forall_forall _ _)), rows_bytes, Hop.
Qed.

Lemma startup_tables en gd gm st :
  startup en = inr (gd, gm, st) ->
  table_ok gd = true /\ table_ok gm = true /\ strokeStyle (ctxC st) = black8 /\ strokeStyle (ctxM st) = black8.
Proof.
  unfold startup. destruct (has2d en) eqn:H2; [|discriminate].
  destruct (getGradientData_rows color_of_stop (fun _ => true) colorStops 25 ltac:(lia) ltac:(discriminate)
              (stop_ok_and_true _ _ color_stops_ok)) as (F1 & N1 & ->).
  destruct (getGradientData_rows mask_of_stop is_gray colorStops 25 ltac:(lia) ltac:(discriminate))
    as (F2 & N2 & ->).
  { repeat constructor; apply mask_stop_ok; simpl; lra. }
  intros E. injection E as <- <- <-.
  split; [|split; [|done]].
  1: apply (rows_table_ok (fun j => gradient_color (stops_of color_of_stop colorStops []) (table_omega 25 j))).
  2: apply (rows_table_ok (fun j => gradient_color (stops_of mask_of_stop colorStops []) (table_omega 25 j))).
  all: intros j; apply (gradient_color_inv opaque_ok); [apply mix8_opaque_ok | done |];
    eapply Forall_impl; [eassumption|]; intros p Hp; by apply andb_true_iff in Hp as [? _].
Qed.

Lemma strand_ctx en gd gm i t st st' :
  strand cov en gd gm i t st = inr st' ->
  let e := (t / 1000 + INR i)%R in
  let cy := (IZR (innerHeight en) / 2)%R in
  ctxC st' = drawOnCtx (innerWidth en) (ctxC st) gd e cy /\
  ctxM st' = drawOnCtx (innerWidth en) (ctxM st) gm e cy.
Proof.
  unfold strand. destruct (textures st !! i) as [[b m]|]; [|discriminate].
  destruct (subimage b _); [discriminate|]. destruct (subimage m _); [discriminate|].
  simpl. intros [= <-]. done.
Qed.

Lemma strands_strokeStyle en gd gm clock i n s0 st' :
  table_ok gd = true -> table_ok gm = true ->
  strands cov en gd gm clock i (S n) s0 = inr st' ->
  strokeStyle (ctxC st') = table_color (id_data gd) 1 /\ strokeStyle (ctxM st') = table_color (id_data gm) 1.
Proof.
  intros Hgd Hgm. revert i s0. induction n as [|n IH]; intros i s0 E;
    cbn [strands] in E; destruct (strand cov en gd gm i (clock i) s0) as [|s1] eqn:Es; try discriminate.
  - injection E as <-. destruct (strand_ctx _ _ _ _ _ _ _ Es) as [-> ->].
    split; by apply drawOnCtx_strokeStyle.
  - exact (IH (S i) s1 E).
Qed.

Lemma reachable_tables en0 gd gm st :
  reachable cov en0 gd gm st -> table_ok gd = true /\ table_ok gm = true.
Proof.
  induction 1 as [gd gm st E | en gd gm clock st st' R IH E]; [|exact IH].
  by destruct (startup_tables en0 gd gm st E) as (? & ? & _).
Qed.

(** C9 (reachable_stale_style): in every reachable state the style each
    canvas carries into the widest pass is black (after start-up) or pixel 1
    of that canvas's own table (after a frame). *)
Theorem reachable_stale_style en0 gd gm st :
  reachable cov en0 gd gm st ->
  (strokeStyle (ctxC st) = black8 /\ strokeStyle (ctxM st) = black8) \/
  (strokeStyle (ctxC st) = table_color (id_data gd) 1 /\ strokeStyle (ctxM st) = table_color (id_data gm) 1).
Proof.
  intros R. pose proof (reachable_tables en0 gd gm st R) as Ht.
  destruct R as [gd gm st E | en gd gm clock st st' R E].
  - left. by destruct (startup_tables en0 gd gm st E) as (_ & _ & ? & ?).
  - right. exact (strands_strokeStyle en gd gm clock 0 2 _ st' (proj1 Ht) (proj2 Ht) E).
Qed.
End Stale.

(** C20 (depth_clear_isolation): the quad writes depth 1/2 wherever it
    covers, so without [regl.clear({depth: 1})] (line 197) a second quad is
    discarded; with it, it is blended over the first. *)
Theorem depth_clear_isolation `{Quantizer} cov w h b0 m0 b1 m1 (f : framebuffer) px py :
  (0 <= px < w)%Z -> (0 <= py < h)%Z -> (quad_depth < fb_depth (f px py))%Q ->
  let f1 := drawLine cov w h b0 m0 f in
  let uv := uv_of (pixel_center w h px py) in
  drawLine cov w h b1 m1 f1 px py = f1 px py /\
  drawLine cov w h b1 m1 (clear_depth f1) px py =
    FbPx (blend (fragment cov b1 m1 uv) (blend (fragment cov b0 m0 uv) (fb_color (f px py)))) quad_depth.
Proof.
  intros Hx Hy Hd f1 uv. unfold f1, drawLine, clear_depth.
  rewrite !pixel_center_covered by done. unfold draw_fragment.
  destruct (Qlt_le_dec quad_depth (fb_depth (f px py))) as [_|Hle]; [|exfalso; lra].
  simpl. split.
  - destruct (Qlt_le_dec quad_depth quad_depth) as [Hlt|_]; [exfalso; lra | done].
  - destruct (Qlt_le_dec quad_depth 1) as [_|Hle]; [done | exfalso; unfold quad_depth in Hle; lra].
Qed.

(** ** Witnesses *)

Definition witness_cov : coverage := fun _ _ _ => false.
Definition witness_ctx : context2d := Context2D 2 2 1 black8 (PColor black8) 1 JoinRound CapRound [] [].
Definition witness_env : env := Env 2 2 2 2 true.
Definition witness_state : app_state :=
  App witness_ctx witness_ctx (repeat (texture_of witness_ctx, texture_of witness_ctx) count) initial_fb.

Lemma witness_state_ready : frame_ready witness_state.
Proof. split; [reflexivity|]. split; [repeat constructor | intros; reflexivity]. Qed.

Definition witness_draw (i : nat) (c : context2d) : context2d :=
  drawOnCtx 2 c sample_table (phase (fun _ => 0%R) i) 1.

Lemma frame_composite_witness :
  frame_ready witness_state /\
  exists st', frame witness_cov witness_env sample_table sample_table (fun _ => 0%R) witness_state = inr st' /\
    ctxC st' = witness_draw 2 (witness_draw 1 (witness_draw 0 witness_ctx)).
Proof.
  split; [exact witness_state_ready|].
  destruct (frame_composite witness_cov witness_env sample_table sample_table (fun _ => 0%R) witness_state
              witness_state_ready) as (st' & E & C & _).
  exists st'. split; [exact E|]. rewrite C. unfold witness_draw.
  replace (IZR (innerHeight witness_env) / 2)%R with 1%R by (simpl; field). reflexivity.
Defined.

Lemma reachable_frame_ok_witness :
  has2d witness_env = true /\
  exists gd gm st0, startup witness_env = inr (gd, gm, st0) /\
    exists st', frame witness_cov witness_env gd gm (fun _ => 0%R) st0 = inr st'.
Proof.
  split; [reflexivity|].
  destruct (proj1 (proj2 (reachable_frame_ok witness_cov witness_env sample_table sample_table witness_state))
              eq_refl) as (gd & gm & st0 & E).
  exists gd, gm, st0. split; [exact E|].
  destruct (proj2 (proj2 (reachable_frame_ok witness_cov witness_env gd gm st0)) (reach_start _ _ _ _ _ E))
    as [_ F].
  apply F.
Defined.

Lemma reachable_stale_style_witness :
  exists gd gm st0, startup witness_env = inr (gd, gm, st0) /\
    reachable witness_cov witness_env gd gm st0 /\
    ((strokeStyle (ctxC st0) = black8 /\ strokeStyle (ctxM st0) = black8) \/
     (strokeStyle (ctxC st0) = table_color (id_data gd) 1 /\ strokeStyle (ctxM st0) = table_color (id_data gm) 1)).
Proof.
  destruct (startup_ready witness_env eq_refl) as (gd & gm & st0 & E & _).
  exists gd, gm, st0. split; [exact E|].
  pose proof (reach_start witness_cov witness_env gd gm st0 E) as R.
  split; [exact R|]. exact (reachable_stale_style witness_cov witness_env gd gm st0 R).
Defined.

Lemma depth_clear_isolation_witness :
  let t := Texture 2 2 [] in
  let f1 := drawLine witness_cov 2 2 t t initial_fb in
  drawLine witness_cov 2 2 t t f1 0%Z 0%Z = f1 0%Z 0%Z.
Proof.
  intros t f1.
  destruct (depth_clear_isolation witness_cov 2 2 t t t t initial_fb 0 0) as [E _];
    [lia | lia | reflexivity | exact E].
Defined.
