(* ===== verification/Refinement.v ===== *)
(** * What a frame shows, from the inputs alone: [frame_pixel] gives buffer
    pixel [(px, py)] from the tables, window, clock and coverage (the
    mirrored nearest texel, each strand's band there, colour and mask of
    that band, blended in order over black).  [frame_refines] composes
    [Frame.frame_spec], [Pixels.fragment_drawOnCtx] and the shape invariant
    [reachable_shape].  The same invariant, with the path a call builds,
    gives [frame_curve_centre]: after a resize the curves start at half the
    current window width while the canvases keep their start-up size. *)

From S2P Require Import Prelude Css Canvas Layer Gradient Compositor Pixels Frame.
From stdpp Require Import base list.
From Stdlib Require Import ZArith QArith Reals Lia Psatz.

Definition shape_ok (W H : Z) (c : context2d) : Prop :=
  cv_width c = W /\ cv_height c = H /\ cv_scale c = 1%Z /\ lineJoin c = JoinRound /\ lineCap c = CapRound.

Lemma shape_drawOnCtx W H w c d e cy : shape_ok W H c -> shape_ok W H (drawOnCtx w c d e cy).
Proof.
  intros (Hw & Hh & Hs & Hj & Hc). destruct (drawOnCtx_frame w c d e cy) as (J & K & S & Wd & Ht).
  unfold shape_ok. by rewrite J, K, S, Wd, Ht.
Qed.

Section Refine.
Context `{Quantizer}.
Variable cov : coverage.
Hypothesis cov_style_blind : forall p w s s' jn cp sc i j,
  cov (StrokeOp p w s jn cp sc) i j = cov (StrokeOp p w s' jn cp sc) i j.

(** The band of the curve of phase [e] at canvas pixel [(i, j)]. *)
Definition band_at (w : Z) (e cy : R) (i j : Z) : option nat :=
  narrowest (fun l => cov (StrokeOp (curve_path (IZR w / 2) cy e) (inject_Z (Z.of_nat l * 2)) black8
                                    JoinRound CapRound 1) i j) passes.


(** [sC], [sM]: the canvases' styles before the frame. *)
Definition frame_pixel (Wd Ht : Z) (en : env) (gd gm : image_data) (clock : nat -> R)
    (sC sM : rgba8) (px py : Z) : rgba8 :=
  let uv := uv_of (pixel_center (bufW en) (bufH en) px py) in
  let ti := nearest_index (fst uv) Wd in
  let tj := nearest_index (snd uv) Ht in
  let cy := (IZR (innerHeight en) / 2)%R in
  let f i sc sm := band_fragment gd gm sc sm (band_at (innerWidth en) (phase clock i) cy ti tj) in
  let sC' := table_color (id_data gd) 1 in
  let sM' := table_color (id_data gm) 1 in
  blend (f 2%nat sC' sM') (blend (f 1%nat sC' sM') (blend (f 0%nat sC sM) black_px)).

Lemma strands_shape en gd gm clock Wd Ht i n st st' :
  strands cov en gd gm clock i n st = inr st' ->
  shape_ok Wd Ht (ctxC st) -> shape_ok Wd Ht (ctxM st) ->
  shape_ok Wd Ht (ctxC st') /\ shape_ok Wd Ht (ctxM st').
Proof.
  revert i st. induction n as [|n IH]; intros i st E Hc Hm; cbn [strands] in E.
  - by injection E as <-.
  - destruct (strand cov en gd gm i (clock i) st) as [|s1] eqn:Es; [discriminate|].
    destruct (strand_ctx cov en gd gm i (clock i) st s1 Es) as [C M].
    apply (IH (S i) s1 E); rewrite ?C, ?M; by apply shape_drawOnCtx.
Qed.

Lemma reachable_shape en0 gd gm st :
  reachable cov en0 gd gm st ->
  shape_ok (innerWidth en0) (innerHeight en0) (ctxC st) /\
  shape_ok (innerWidth en0) (innerHeight en0) (ctxM st).
Proof.
  induction 1 as [gd gm st E | en gd gm clock st st' R IH E].
  - unfold startup in E. destruct (has2d en0); [|discriminate].
    destruct (getGradientData true 25 colorStops color_of_stop); [discriminate|].
    destruct (getGradientData true 25 colorStops mask_of_stop); [discriminate|].
    cbn in E. injection E as _ _ <-. unfold shape_ok; cbn. rewrite !Z.mul_1_r. tauto.
  - exact (strands_shape en gd gm clock _ _ 0 count _ st' E (proj1 IH) (proj2 IH)).
Qed.

Lemma layer_covers_shape Wd Ht w c e cy i j :
  shape_ok Wd Ht c ->
  narrowest (layer_covers cov w c e cy i j) passes = band_at w e cy i j.
Proof. intros (_ & _ & Hs & Hj & Hc). unfold layer_covers, band_at. by rewrite Hs, Hj, Hc. Qed.

Lemma strand_fragment_band en Wd Ht gd gm c m e px py :
  table_ok gd = true -> table_ok gm = true -> shape_ok Wd Ht c -> shape_ok Wd Ht m ->
  (0 < Wd)%Z -> (0 < Ht)%Z ->
  let cy := (IZR (innerHeight en) / 2)%R in
  let uv := uv_of (pixel_center (bufW en) (bufH en) px py) in
  strand_fragment cov en (drawOnCtx (innerWidth en) c gd e cy) (drawOnCtx (innerWidth en) m gm e cy) px py =
  band_fragment gd gm (strokeStyle c) (strokeStyle m)
    (band_at (innerWidth en) e cy (nearest_index (fst uv) Wd) (nearest_index (snd uv) Ht)).
Proof.
  intros Hgd Hgm Sc Sm HW HH cy uv.
  pose proof Sc as (Cw & Ch & Cs & Cj & Cc). pose proof Sm as (Mw & Mh & Ms & Mj & Mc).
  unfold strand_fragment, uv, uv_of.
  rewrite (fragment_drawOnCtx cov cov_style_blind) by (rewrite ?Cw, ?Ch, ?Cs, ?Mw, ?Mh, ?Ms, ?Mj, ?Mc, ?Cj, ?Cc; done || lia).
  rewrite (layer_covers_shape Wd Ht) by done. rewrite Cw, Ch. reflexivity.
Qed.

(** C2 (frame_refines): in every reachable state a frame gives each buffer
    pixel exactly the colour [frame_pixel] computes from the tables, window,
    clock and coverage alone, with depth 1 (for a non-empty start-up window). *)
Theorem frame_refines en0 en gd gm clock st st' px py :
  reachable cov en0 gd gm st -> (0 < innerWidth en0)%Z -> (0 < innerHeight en0)%Z ->
  frame cov en gd gm clock st = inr st' ->
  (0 <= px < bufW en)%Z -> (0 <= py < bufH en)%Z ->
  fb st' px py =
  FbPx (frame_pixel (innerWidth en0) (innerHeight en0) en gd gm clock
          (strokeStyle (ctxC st)) (strokeStyle (ctxM st)) px py) 1.
Proof.
  intros R HW HH E Hx Hy.
  destruct (reachable_tables cov en0 gd gm st R) as [Tgd Tgm].
  destruct (reachable_shape en0 gd gm st R) as [Sc Sm].
  destruct (frame_spec cov en gd gm clock st (reachable_ready cov en0 gd gm st R))
    as (st'' & E' & _ & _ & _ & F).
  rewrite E in E'. injection E' as <-. rewrite F by done.
  unfold frame_pixel. f_equal.
  rewrite !(strand_fragment_band en (innerWidth en0) (innerHeight en0)) by
    (first [done | (repeat apply shape_drawOnCtx); done]).
  rewrite !drawOnCtx_strokeStyle by done. reflexivity.
Qed.
End Refine.

Lemma drawOnCtx_cur_path w ctx d e cy : cur_path (drawOnCtx w ctx d e cy) = curve_path (IZR w / 2) cy e.
Proof.
  unfold drawOnCtx. fold (drawOnCtx_path_ctx w ctx e cy).
  destruct (stroke_loop_spec (id_data d) passes (drawOnCtx_path_ctx w ctx e cy)) as (_ & _ & ->).
  by destruct (drawOnCtx_path_ctx_spec w ctx e cy) as (_ & P & _).
Qed.

Section Resize.
Context `{Quantizer}.
Variable cov : coverage.

(** C11 (frame_curve_centre): after any frame of a run, both canvases keep
    the width of the start-up window, but the curves start at half the
    width of the window the frame sees ([window.innerWidth / 2], line 125).
    So after a resize the curve is not centred on its canvas, where the
    spec (4.2 step 2) puts it at half the surface's width. *)
Theorem frame_curve_centre en0 en gd gm clock st st' :
  reachable cov en0 gd gm st -> frame cov en gd gm clock st = inr st' ->
  cv_width (ctxC st') = innerWidth en0 /\ cv_width (ctxM st') = innerWidth en0 /\
  hd_error (cur_path (ctxC st')) = Some (MoveTo (Pt (IZR (innerWidth en) / 2) (IZR (innerHeight en) / 2))) /\
  hd_error (cur_path (ctxM st')) = Some (MoveTo (Pt (IZR (innerWidth en) / 2) (IZR (innerHeight en) / 2))).
Proof.
  intros R E.
  destruct (reachable_shape cov en0 gd gm st R) as [Sc Sm].
  destruct (strands_shape cov en gd gm clock _ _ 0 count _ st' E Sc Sm) as [(Cw & _) (Mw & _)].
  destruct (frame_spec cov en gd gm clock st (reachable_ready cov en0 gd gm st R))
    as (st'' & E' & C & M & _).
  rewrite E in E'. injection E' as <-.
  split; [done|]. split; [done|]. by rewrite C, M, !drawOnCtx_cur_path.
Qed.
End Resize.

(** ** Witnesses *)

Lemma frame_refines_witness :
  exists gd gm st0 st',
    startup witness_env = inr (gd, gm, st0) /\
    frame witness_cov witness_env gd gm (fun _ => 0%R) st0 = inr st' /\
    fb st' 0%Z 1%Z =
    FbPx (frame_pixel witness_cov 2 2 witness_env gd gm (fun _ => 0%R)
            (strokeStyle (ctxC st0)) (strokeStyle (ctxM st0)) 0 1) 1.
Proof.
  destruct (startup_ready witness_env eq_refl) as (gd & gm & st0 & E & Hr).
  destruct (frame_ready_after witness_cov witness_env gd gm (fun _ => 0%R) st0 Hr) as (st' & F & _).
  exists gd, gm, st0, st'. split; [exact E|]. split; [exact F|].
  apply (frame_refines witness_cov (fun _ _ _ _ _ _ _ _ _ => eq_refl) witness_env witness_env
           gd gm (fun _ => 0%R) st0 st' 0 1);
    [exact (reach_start witness_cov witness_env gd gm st0 E) | reflexivity | reflexivity | exact F
    | simpl; lia | simpl; lia].
Defined.

(** A window twice as wide as at start-up: the curves start at the right
    edge of their 2-pixel-wide canvases. *)
Lemma frame_curve_centre_witness :
  exists gd gm st0 st', startup witness_env = inr (gd, gm, st0) /\
    frame witness_cov (Env 4 2 2 2 true) gd gm (fun _ => 0%R) st0 = inr st' /\
    cv_width (ctxC st') = 2%Z /\
    hd_error (cur_path (ctxC st')) = Some (MoveTo (Pt (IZR 4 / 2) (IZR 2 / 2))).
Proof.
  destruct (startup_ready witness_env eq_refl) as (gd & gm & st0 & E & Hr).
  destruct (frame_ready_after witness_cov (Env 4 2 2 2 true) gd gm (fun _ => 0%R) st0 Hr) as (st' & F & _).
  exists gd, gm, st0, st'. split; [exact E|]. split; [exact F|].
  destruct (frame_curve_centre witness_cov witness_env (Env 4 2 2 2 true) gd gm (fun _ => 0%R) st0 st'
              (reach_start witness_cov witness_env gd gm st0 E) F) as (W & _ & P & _).
  split; [exact W | exact P].
Defined.
